(** * The HTML-to-paragraphs cleaner of App.js

    A shallow embedding of [htmlToParagraphs] and [joinParagraphs]
    (src/App.js, lines 49-101) together with the part of the JavaScript
    string library they call: global [String.prototype.replace] with a
    regular expression, [String.prototype.trim], [String.prototype.split]
    with a regular expression, [Array.prototype.map], [filter(Boolean)] and
    [Array.prototype.join].

    JavaScript strings are sequences of UTF-16 code units; none of the
    regular expressions of the source carries the [u] flag, so they work
    code unit by code unit. *)

From Stdlib Require Import List NArith ZArith Arith Bool Lia String Ascii.
Import ListNotations.

Local Open Scope N_scope.

(** ** Strings *)

Definition char := N.
Definition jsstring := list char.

(** A source literal, written as a Rocq string of ASCII characters. *)
Definition str (s : string) : jsstring :=
  map N_of_ascii (list_ascii_of_string s).

Definition TAB : char := 9.
Definition LF : char := 10.
Definition CR : char := 13.
Definition SP : char := 32.
Definition DQUOTE : char := 34.
Definition HASH : char := 35.
Definition AMP : char := 38.
Definition SQUOTE : char := 39.
Definition SLASH : char := 47.
Definition SEMI : char := 59.
Definition LT : char := 60.
Definition GT : char := 62.

(** ** Character classes *)

Definition cclass := char -> bool.

Definition only (c : char) : cclass := fun x => x =? c.

(** [Canonicalize] of ECMAScript for a pattern without the [u] flag, on the
    characters that matter here: a code unit is upper-cased, and a code unit
    above 127 is never mapped to one below 128.  Every pattern character of
    the source is ASCII, so it is enough to fold the ASCII letters. *)
Definition canon (x : char) : char :=
  if (97 <=? x) && (x <=? 122) then x - 32 else x.

(** A pattern character under the [i] flag. *)
Definition ci (c : char) : cclass := fun x => canon x =? canon c.

(** [\s]: WhiteSpace and LineTerminator of ECMAScript. *)
Definition is_space : cclass := fun x =>
  (x =? 9) || (x =? 10) || (x =? 11) || (x =? 12) || (x =? 13) || (x =? 32)
  || (x =? 160) || (x =? 5760) || ((8192 <=? x) && (x <=? 8202))
  || (x =? 8232) || (x =? 8233) || (x =? 8239) || (x =? 8287)
  || (x =? 12288) || (x =? 65279).

(** [\d] *)
Definition is_digit : cclass := fun x => (48 <=? x) && (x <=? 57).

(** [[1-6]] *)
Definition is_1_6 : cclass := fun x => (49 <=? x) && (x <=? 54).

(** [[\s\S]] *)
Definition any : cclass := fun _ => true.

(** [[^>]] *)
Definition not_gt : cclass := fun x => negb (x =? GT).

(** ** Regular expressions

    Every pattern of the source is a sequence of single-character atoms,
    each taken once or under a quantifier. *)

Inductive item :=
| Chr (p : cclass)        (* one character of the class *)
| Opt (p : cclass)        (* [p?], greedy *)
| Star (p : cclass)       (* [p*], greedy *)
| StarLazy (p : cclass).  (* [p*?], lazy *)

Definition regex := list item.

(** The backtracking matcher, anchored at the head of [s]: the number of code
    units consumed by the first match in priority order, if any.  [k] is the
    matcher of the rest of the pattern. *)

Fixpoint star_greedy (p : cclass) (k : jsstring -> option nat) (s : jsstring)
  : option nat :=
  match s with
  | c :: s' =>
      if p c then
        match star_greedy p k s' with
        | Some n => Some (S n)
        | None => k s
        end
      else k s
  | [] => k []
  end.

Fixpoint star_lazy (p : cclass) (k : jsstring -> option nat) (s : jsstring)
  : option nat :=
  match k s with
  | Some n => Some n
  | None =>
      match s with
      | c :: s' => if p c then option_map S (star_lazy p k s') else None
      | [] => None
      end
  end.

Fixpoint match_len (re : regex) (s : jsstring) : option nat :=
  match re with
  | [] => Some O
  | Chr p :: r =>
      match s with
      | c :: s' => if p c then option_map S (match_len r s') else None
      | [] => None
      end
  | Opt p :: r =>
      match s with
      | c :: s' =>
          if p c then
            match match_len r s' with
            | Some n => Some (S n)
            | None => match_len r s
            end
          else match_len r s
      | [] => match_len r []
      end
  | Star p :: r => star_greedy p (match_len r) s
  | StarLazy p :: r => star_lazy p (match_len r) s
  end.

(** Pattern builders. *)

Definition lit_ci (s : string) : regex := map (fun c => Chr (ci c)) (str s).

(** [p{n,}], greedy *)
Definition at_least (n : nat) (p : cclass) : regex :=
  repeat (Chr p) n ++ [Star p].

(** ** String.prototype.replace with a global pattern

    The scan goes left to right; [skip] counts the code units of the current
    match still to be passed over.  After an empty match the scan advances by
    one code unit, which is copied. *)

Fixpoint replace_go (re : regex) (rep : jsstring) (skip : nat) (s : jsstring)
  : jsstring :=
  match s with
  | [] =>
      match skip, match_len re [] with
      | O, Some _ => rep
      | _, _ => []
      end
  | c :: s' =>
      match skip with
      | S k => replace_go re rep k s'
      | O =>
          match match_len re s with
          | Some (S k) => rep ++ replace_go re rep k s'
          | Some O => rep ++ c :: replace_go re rep O s'
          | None => c :: replace_go re rep O s'
          end
      end
  end.

Definition replace (re : regex) (rep : jsstring) (s : jsstring) : jsstring :=
  replace_go re rep O s.

(** ** String.prototype.trim *)

Fixpoint drop_space (s : jsstring) : jsstring :=
  match s with
  | c :: s' => if is_space c then drop_space s' else s
  | [] => []
  end.

Definition trim (s : jsstring) : jsstring :=
  rev (drop_space (rev (drop_space s))).

(** ** String.prototype.split with a pattern

    The result is never empty for a non-empty string; its head is the segment
    being read.  [at_start] says that the segment being read is still empty
    because a separator has just ended (or the scan has just begun): an empty
    match there is passed over. *)

Definition push_char (c : char) (segs : list jsstring) : list jsstring :=
  match segs with
  | seg :: rest => (c :: seg) :: rest
  | [] => [[c]]
  end.

Fixpoint split_go (re : regex) (skip : nat) (at_start : bool) (s : jsstring)
  : list jsstring :=
  match s with
  | [] => [[]]
  | c :: s' =>
      match skip with
      | S k => split_go re k true s'
      | O =>
          match match_len re s with
          | Some (S k) => [] :: split_go re k true s'
          | Some O =>
              if at_start then push_char c (split_go re O false s')
              else [] :: push_char c (split_go re O false s')
          | None => push_char c (split_go re O false s')
          end
      end
  end.

Definition split (re : regex) (s : jsstring) : list jsstring :=
  match s with
  | [] => match match_len re [] with Some _ => [] | None => [[]] end
  | _ => split_go re O true s
  end.

(** ** Array.prototype.join

    The loop of the standard: the separator goes before every element but
    the first. *)

Fixpoint join_loop (sep : jsstring) (k : nat) (R : jsstring)
  (l : list jsstring) : jsstring :=
  match l with
  | [] => R
  | x :: l' =>
      join_loop sep (S k) ((if Nat.eqb k 0 then R else R ++ sep) ++ x) l'
  end.

Definition join (sep : jsstring) (l : list jsstring) : jsstring :=
  join_loop sep 0 [] l.

(** [filter(Boolean)] on an array of strings keeps the non-empty ones. *)
Definition truthy (s : jsstring) : bool :=
  match s with [] => false | _ => true end.

(** ** The patterns of htmlToParagraphs, in source order *)

Definition re_nbsp : regex := lit_ci "&nbsp;".
Definition re_amp : regex := lit_ci "&amp;".
Definition re_39 : regex := lit_ci "&#39;".
Definition re_quot : regex := lit_ci "&quot;".
Definition re_lt : regex := lit_ci "&lt;".
Definition re_gt : regex := lit_ci "&gt;".

(** [/<script[\s\S]*?>[\s\S]*?<\/script>/gi] *)
Definition re_script : regex :=
  lit_ci "<script" ++ [StarLazy any; Chr (ci GT); StarLazy any]
  ++ lit_ci "</script>".

(** [/<style[\s\S]*?>[\s\S]*?<\/style>/gi] *)
Definition re_style : regex :=
  lit_ci "<style" ++ [StarLazy any; Chr (ci GT); StarLazy any]
  ++ lit_ci "</style>".

(** [/<br\s*\/?>/gi] *)
Definition re_br : regex :=
  lit_ci "<br" ++ [Star is_space; Opt (ci SLASH); Chr (ci GT)].

Definition re_p_close : regex := lit_ci "</p>".
Definition re_div_close : regex := lit_ci "</div>".

(** [/<\/h[1-6]>/gi] *)
Definition re_h_close : regex := lit_ci "</h" ++ [Chr is_1_6; Chr (ci GT)].

(** [/<p[^>]*>/gi], [/<div[^>]*>/gi], [/<h[1-6][^>]*>/gi] *)
Definition re_p_open : regex := lit_ci "<p" ++ [Star not_gt; Chr (ci GT)].
Definition re_div_open : regex := lit_ci "<div" ++ [Star not_gt; Chr (ci GT)].
Definition re_h_open : regex :=
  lit_ci "<h" ++ [Chr is_1_6; Star not_gt; Chr (ci GT)].

(** [/<[^>]+>/g] *)
Definition re_tag : regex := [Chr (only LT)] ++ at_least 1 not_gt ++ [Chr (only GT)].

(** [/#\d{2,}/g], [/&{2,}/g] *)
Definition re_hash : regex := Chr (only HASH) :: at_least 2 is_digit.
Definition re_amps : regex := at_least 2 (only AMP).

(** [/\r/g], [/\t/g], [/ {2,}/g], [/\n{3,}/g], [/\n{2,}/] *)
Definition re_cr : regex := [Chr (only CR)].
Definition re_tab : regex := [Chr (only TAB)].
Definition re_spaces : regex := at_least 2 (only SP).
Definition re_nl3 : regex := at_least 3 (only LF).
Definition re_nl2 : regex := at_least 2 (only LF).

(** ** The stages of htmlToParagraphs *)

(** lines 54-59 *)
Definition decode_entities (s : jsstring) : jsstring :=
  let s := replace re_nbsp [SP] s in
  let s := replace re_amp [AMP] s in
  let s := replace re_39 [SQUOTE] s in
  let s := replace re_quot [DQUOTE] s in
  let s := replace re_lt [LT] s in
  replace re_gt [GT] s.

(** lines 62-63 *)
Definition remove_scripts (s : jsstring) : jsstring :=
  let s := replace re_script [] s in
  replace re_style [] s.

(** lines 66-69 *)
Definition block_boundaries (s : jsstring) : jsstring :=
  let s := replace re_br [LF] s in
  let s := replace re_p_close [LF; LF] s in
  let s := replace re_div_close [LF; LF] s in
  replace re_h_close [LF; LF] s.

(** lines 72-74 *)
Definition remove_openers (s : jsstring) : jsstring :=
  let s := replace re_p_open [] s in
  let s := replace re_div_open [] s in
  replace re_h_open [] s.

(** line 77 *)
Definition strip_tags (s : jsstring) : jsstring := replace re_tag [] s.

(** lines 80-81 *)
Definition remove_noise (s : jsstring) : jsstring :=
  let s := replace re_hash [] s in
  replace re_amps [AMP] s.

(** lines 84-91 *)
Definition normalize_ws (s : jsstring) : jsstring :=
  let s := replace re_cr [] s in
  let s := replace re_tab [SP] s in
  let s := replace re_spaces [SP] s in
  let s := replace re_nl3 [LF; LF] s in
  trim s.

(** line 94 *)
Definition split_paragraphs (s : jsstring) : list jsstring :=
  filter truthy (map trim (split re_nl2 s)).

(** The string that reaches the generic tag stripping of line 77. *)
Definition before_strip (s : jsstring) : jsstring :=
  remove_openers (block_boundaries (remove_scripts (decode_entities s))).

(** The rest of the function, from line 77 on. *)
Definition from_strip (s : jsstring) : list jsstring :=
  split_paragraphs (normalize_ws (remove_noise (strip_tags s))).

(** The body of htmlToParagraphs on a non-empty string. *)
Definition clean (s : jsstring) : list jsstring := from_strip (before_strip s).

(** ** Values and calls *)

Inductive value :=
| VUndefined
| VNull
| VBool (b : bool)
| VString (s : jsstring).

Inductive completion (A : Type) :=
| Normal (a : A)
| ThrowTypeError.
Arguments Normal {A} a.
Arguments ThrowTypeError {A}.

(** The default parameter [input = ""] replaces [undefined] only. *)
Definition default_empty (v : value) : value :=
  match v with
  | VUndefined => VString []
  | _ => v
  end.

(** [!input] *)
Definition falsy (v : value) : bool :=
  match v with
  | VUndefined | VNull => true
  | VBool b => negb b
  | VString s => negb (truthy s)
  end.

(** A truthy value that is not a string has no [replace] method: the first
    call of line 54 throws. *)
Definition htmlToParagraphs (input : value) : completion (list jsstring) :=
  let input := default_empty input in
  if falsy input then Normal []
  else
    match input with
    | VString s => Normal (clean s)
    | _ => ThrowTypeError
    end.

Definition joinParagraphs (input : value) : completion jsstring :=
  let input := default_empty input in
  match htmlToParagraphs input with
  | Normal paras => Normal (join [LF; LF] paras)
  | ThrowTypeError => ThrowTypeError
  end.

(** The two functions on strings, as the specification names them. *)
Definition normalize (raw : jsstring) : list jsstring :=
  if truthy raw then clean raw else [].

Definition join_raw (raw : jsstring) : jsstring :=
  join [LF; LF] (normalize raw).

(** "Paragraphs concatenated with a separator", as the specification words
    [join]; compared with [join] below. *)
Fixpoint intercalate (sep : jsstring) (l : list jsstring) : jsstring :=
  match l with
  | [] => []
  | [x] => x
  | x :: l' => x ++ sep ++ intercalate sep l'
  end.

(** ** Predicates used in the statements *)

Local Open Scope nat_scope.

(** A string that [trim] leaves alone at both ends. *)
Definition trimmed (s : jsstring) : Prop :=
  drop_space s = s /\ drop_space (rev s) = rev s.

(** No match starts at any position of [x] when [x] is followed by [y]. *)
Fixpoint no_start (re : regex) (x y : jsstring) : Prop :=
  match x with
  | [] => True
  | _ :: x' => match_len re (x ++ y) = None /\ no_start re x' y
  end.

Definition item_class (it : item) : cclass :=
  match it with Chr p | Opt p | Star p | StarLazy p => p end.

Definition rejects (r : regex) (x : char) : bool :=
  forallb (fun it => negb (item_class it x)) r.

(** [t] spells the literal [L] up to the case of its letters. *)
Definition ci_eq (L t : jsstring) : Prop :=
  Forall2 (fun pc c => ci pc c = true) L t.

(** A string without the character [c]. *)
Definition lacks (c : char) (s : jsstring) : Prop :=
  Forall (fun x => (x =? c)%N = false) s.

Definition reads (re : regex) (c : char) : bool :=
  existsb (fun it => item_class it c) re.

(** Characters that are neither white space, nor a digit, nor a hash or an
    ampersand: the stages after the tag stripping never delete them. *)
Definition plain (x : char) : bool :=
  negb (is_space x || is_digit x || (x =? HASH)%N || (x =? AMP)%N).

Definition nonletter (c : char) : Prop :=
  (c < 65 \/ 90 < c /\ c < 97 \/ 122 < c)%N.

(** The length of the run of [c] at the head of the string. *)
Fixpoint run_length (c : char) (s : jsstring) : nat :=
  match s with
  | x :: s' => if (x =? c)%N then S (run_length c s') else 0
  | [] => 0
  end.

(** Every run of [c] in the string is shorter than [n]. *)
Fixpoint runs_below (n : nat) (c : char) (s : jsstring) : Prop :=
  match s with
  | [] => True
  | _ :: s' => run_length c s < n /\ runs_below n c s'
  end.

(** [seg] occurs in [s] as a contiguous piece. *)
Definition factor (seg s : jsstring) : Prop :=
  exists pre post, s = pre ++ seg ++ post.

(** What every paragraph of the result satisfies. *)
Definition clean_par (p : jsstring) : Prop :=
  p <> [] /\ trimmed p
  /\ lacks CR p /\ lacks TAB p
  /\ runs_below 2 SP p /\ runs_below 2 LF p.

(** Text that the entity, tag and noise stages leave as it is. *)
Definition markup_free (t : jsstring) : Prop :=
  remove_noise (strip_tags (before_strip t)) = t.

(** ** Further predicates *)

(** No position of the string begins a tag as line 77 reads one: a [<] is
    followed at once by [>], or by no [>] at all. *)
Fixpoint tagless (s : jsstring) : Prop :=
  match s with
  | [] => True
  | c :: s' =>
      ((c =? LT)%N = true -> (exists s'', s' = GT :: s'') \/ lacks GT s')
      /\ tagless s'
  end.

(** The characters of a string that are not white space, in order. *)
Definition nonspace (s : jsstring) : jsstring :=
  filter (fun c => negb (is_space c)) s.

(** A closing paragraph, division or heading tag, letters in either case. *)
Definition is_close_tag (cl : jsstring) : Prop :=
  ci_eq (str "</p>") cl
  \/ ci_eq (str "</div>") cl
  \/ exists t d, cl = t ++ [d; GT] /\ ci_eq (str "</h") t /\ is_1_6 d = true.

(** ** The chapter screen (lines 397-463)

    The identifiers, titles and dates come from the server as JSON values;
    they are parameters, and so is the strict equality [===] on
    identifiers. *)

Section ChapterModel.

Variables (ident title date series : Type).
Variable strict_eq : ident -> ident -> bool.

Record chapter := { ch_id : ident; ch_title : title; ch_date : date }.

(** The parameters handed to [navigation.replace("Chapter", ...)]. *)
Record chapter_route := {
  r_id : ident;
  r_title : title;
  r_series : series;
  r_chapters : list chapter }.

(** [Array.prototype.findIndex]: the first index whose element passes the
    test, or -1. *)
Fixpoint findIndex_from {A : Type} (test : A -> bool) (l : list A) (k : Z)
  : Z :=
  match l with
  | [] => (-1)%Z
  | x :: l' => if test x then k else findIndex_from test l' (k + 1)%Z
  end.

Definition findIndex {A : Type} (test : A -> bool) (l : list A) : Z :=
  findIndex_from test l 0%Z.

(** [chapters.findIndex((c) => c.id === id)], line 433 *)
Definition chapter_idx (chapters : list chapter) (id : ident) : Z :=
  findIndex (fun c => strict_eq (ch_id c) id) chapters.

(** [goToIndex], lines 435-439: [None] when it returns without
    navigating. *)
Definition goToIndex (chapters : list chapter) (seriesId : series)
  (newIdx : Z) : option chapter_route :=
  if ((newIdx <? 0) || (newIdx >=? Z.of_nat (List.length chapters)))%Z
  then None
  else
    match nth_error chapters (Z.to_nat newIdx) with
    | Some ch =>
        Some {| r_id := ch_id ch; r_title := ch_title ch;
                r_series := seriesId; r_chapters := chapters |}
    | None => None
    end.

(** The two buttons, lines 455 and 458. *)
Definition press_previous (chapters : list chapter) (seriesId : series)
  (id : ident) : option chapter_route :=
  goToIndex chapters seriesId (chapter_idx chapters id - 1)%Z.

Definition press_next (chapters : list chapter) (seriesId : series)
  (id : ident) : option chapter_route :=
  goToIndex chapters seriesId (chapter_idx chapters id + 1)%Z.

End ChapterModel.

Arguments ch_id {ident title date} c.
Arguments ch_title {ident title date} c.
Arguments r_id {ident title date series} c.
Arguments r_chapters {ident title date series} c.
Arguments r_series {ident title date series} c.
Arguments Build_chapter_route {ident title date series}.
Arguments chapter_idx {ident title date} strict_eq chapters id.
Arguments goToIndex {ident title date series} chapters seriesId newIdx.
Arguments press_previous {ident title date series} strict_eq chapters
  seriesId id.
Arguments press_next {ident title date series} strict_eq chapters
  seriesId id.

(** ** The favourites (lines 104-121, 226-230, 304, 314-332)

    The store holds what AsyncStorage has under the key of the favourites:
    nothing, or a string.  [JSON.stringify] and [JSON.parse] on arrays of
    favourites are parameters ([parse] gives [None] where [JSON.parse]
    throws).  A storage call may be rejected: [get_ok] and [set_ok] say
    whether [getItem] and [setItem] go through. *)

Section FavouritesModel.

Variables (ident name cover : Type).
Variable strict_eq : ident -> ident -> bool.

Record fav := { fav_id : ident; fav_name : name; fav_cover : cover }.

(** The fields of the series details that the screen uses for this. *)
Record details := { d_id : ident; d_name : name; d_cover : cover }.

Variable stringify : list fav -> jsstring.
Variable parse : jsstring -> option (list fav).

Definition store := option jsstring.

(** lines 111-121: a rejected read and a text that does not parse are
    both caught and give the empty array. *)
Definition loadFavorites (get_ok : bool) (st : store) : list fav :=
  if get_ok then
    match st with
    | None => []
    | Some raw =>
        if truthy raw then
          match parse raw with
          | Some favs => favs
          | None => []
          end
        else []
    end
  else [].

(** lines 104-110: a rejected write is caught and leaves the store as it
    was.  An array is truthy, so [favs || []] is [favs]. *)
Definition saveFavorites (set_ok : bool) (favs : list fav) (st : store)
  : store :=
  if set_ok then Some (stringify favs) else st.

(** [(favs || []).some((x) => x.id === data.id)], line 304 *)
Definition is_favourite (favs : list fav) (id : ident) : bool :=
  existsb (fun x => strict_eq (fav_id x) id) favs.

(** [(favs || []).filter((x) => x.id !== id)], lines 227 and 318 *)
Definition without (favs : list fav) (id : ident) : list fav :=
  filter (fun x => negb (strict_eq (fav_id x) id)) favs.

(** [toggleFav], lines 314-332, on the store and the flag [isFav]. *)
Definition toggleFav (get_ok set_ok : bool) (d : details)
  (st : store) (isFav : bool) : store * bool :=
  let favs := loadFavorites get_ok st in
  if isFav then
    let next := without favs (d_id d) in
    (saveFavorites set_ok next st, false)
  else
    let next :=
      {| fav_id := d_id d; fav_name := d_name d; fav_cover := d_cover d |}
      :: favs in
    (saveFavorites set_ok next st, true).

(** [remove] of the library screen, lines 226-230, on the state [favs] of
    the screen ([None] for [null]) and the store. *)
Definition library_remove (set_ok : bool) (id : ident)
  (favs : option (list fav)) (st : store) : list fav * store :=
  let next := without (match favs with Some l => l | None => [] end) id in
  (next, saveFavorites set_ok next st).

End FavouritesModel.

Arguments fav_id {ident name cover} f.
Arguments Build_fav {ident name cover}.
Arguments d_id {ident name cover} d.
Arguments Build_details {ident name cover}.
Arguments loadFavorites {ident name cover} parse get_ok st.
Arguments saveFavorites {ident name cover} stringify set_ok favs st.
Arguments is_favourite {ident name cover} strict_eq favs id.
Arguments without {ident name cover} strict_eq favs id.
Arguments toggleFav {ident name cover} strict_eq stringify parse
  get_ok set_ok d st isFav.
Arguments library_remove {ident name cover} strict_eq stringify
  set_ok id favs st.

(** A small instance of the parameters, for favourites that carry a number
    as identifier and nothing else: the text is the list of the identifiers
    followed by a zero. *)
Definition ids_stringify (l : list (@fav N unit unit)) : jsstring :=
  map fav_id l ++ [0%N].

Definition ids_parse (s : jsstring) : option (list (@fav N unit unit)) :=
  match s with
  | [] => None
  | _ => Some (map (fun i => Build_fav i tt tt) (removelast s))
  end.

(** ** Occurrences of a literal *)

(** [x] begins with the literal [L], up to the case of its letters. *)
Fixpoint prefix_ci (L x : jsstring) : bool :=
  match L, x with
  | [], _ => true
  | _ :: _, [] => false
  | pc :: L', c :: x' => ci pc c && prefix_ci L' x'
  end.

(** The literal occurs somewhere in the string. *)
Fixpoint contains_ci (L s : jsstring) : bool :=
  prefix_ci L s
  || match s with
     | [] => false
     | _ :: s' => contains_ci L s'
     end.

(** [x] begins with the literal, or is itself a beginning of the literal:
    followed by the right text, an occurrence begins at the head of [x]. *)
Fixpoint may_begin (L x : jsstring) : bool :=
  match L, x with
  | [], _ => true
  | _ :: _, [] => true
  | pc :: L', c :: x' => ci pc c && may_begin L' x'
  end.

(** At no position of the string can an occurrence of the literal begin,
    whatever follows the string. *)
Fixpoint opens_nothing (L s : jsstring) : bool :=
  match s with
  | [] => true
  | _ :: s' => negb (may_begin L s) && opens_nothing L s'
  end.

(** Neither [<script] nor [<style] begins in the string. *)
Definition no_block_start (s : jsstring) : bool :=
  opens_nothing (str "<script") s && opens_nothing (str "<style") s.

(** The two kinds of block of lines 62-63, by their tags. *)
Inductive block_kind := ScriptBlock | StyleBlock.

Definition open_tag (k : block_kind) : jsstring :=
  match k with
  | ScriptBlock => str "<script"
  | StyleBlock => str "<style"
  end.

Definition close_tag (k : block_kind) : jsstring :=
  match k with
  | ScriptBlock => str "</script>"
  | StyleBlock => str "</style>"
  end.

(** The string as the pass that deletes the blocks of kind [k] leaves it:
    line 62 for a script block, lines 62 and 63 for a style block. *)
Definition through (k : block_kind) (s : jsstring) : jsstring :=
  match k with
  | ScriptBlock => replace re_script [] s
  | StyleBlock => replace re_style [] (replace re_script [] s)
  end.

(** The pattern of the pass. *)
Definition block_pattern (k : block_kind) : regex :=
  match k with
  | ScriptBlock => re_script
  | StyleBlock => re_style
  end.

(** * Properties *)

(** ** The call never throws on a string *)

Lemma htmlToParagraphs_string (s : jsstring) :
  htmlToParagraphs (VString s) = Normal (clean s).
Proof. destruct s; reflexivity. Qed.

Lemma normalize_is_clean (s : jsstring) : normalize s = clean s.
Proof. destruct s; reflexivity. Qed.

(** C1: [htmlToParagraphs] returns the empty array for [undefined] and for the
    empty string, and returns normally (no exception) for every string. *)
Theorem htmlToParagraphs_total :
  htmlToParagraphs VUndefined = Normal []
  /\ htmlToParagraphs (VString []) = Normal []
  /\ forall s : jsstring,
       exists paras, htmlToParagraphs (VString s) = Normal paras
                     /\ paras = normalize s.
Proof.
  split; [reflexivity|]. split; [reflexivity|].
  intros s. exists (normalize s). split; [|reflexivity].
  now rewrite htmlToParagraphs_string, normalize_is_clean.
Qed.

(** The exceptional path of the model is real: a truthy value without a
    [replace] method makes the first call throw. *)
Example htmlToParagraphs_true_throws :
  htmlToParagraphs (VBool true) = ThrowTypeError.
Proof. reflexivity. Qed.

(** ** join *)

Lemma join_loop_app (sep : jsstring) (l : list jsstring) :
  forall k R,
    join_loop sep k R l
    = R ++ match l with
           | [] => []
           | _ => (if Nat.eqb k 0 then [] else sep) ++ intercalate sep l
           end.
Proof.
  induction l as [|x l IH]; intros k R.
  - simpl. now rewrite app_nil_r.
  - cbn [join_loop]. rewrite IH.
    destruct l as [|y l].
    + cbn [intercalate]. destruct (Nat.eqb k 0); cbn;
        now rewrite ?app_nil_r, <- ?app_assoc.
    + cbn [Nat.eqb]. change (intercalate sep (x :: y :: l))
        with (x ++ sep ++ intercalate sep (y :: l)).
      destruct (Nat.eqb k 0); cbn [app]; now rewrite <- ?app_assoc.
Qed.

Lemma join_intercalate (sep : jsstring) (l : list jsstring) :
  join sep l = intercalate sep l.
Proof.
  unfold join. rewrite join_loop_app. destruct l; reflexivity.
Qed.

(** C5: [joinParagraphs] returns the paragraphs of [htmlToParagraphs] on the
    same input, concatenated with two newlines between consecutive
    paragraphs, and nothing else. *)
Theorem joinParagraphs_is_intercalate (raw : jsstring) :
  exists paras,
    htmlToParagraphs (VString raw) = Normal paras
    /\ joinParagraphs (VString raw) = Normal (intercalate [LF; LF] paras)
    /\ join_raw raw = intercalate [LF; LF] (normalize raw).
Proof.
  exists (clean raw). split; [apply htmlToParagraphs_string|]. split.
  - unfold joinParagraphs. cbn [default_empty].
    now rewrite htmlToParagraphs_string, join_intercalate.
  - unfold join_raw. apply join_intercalate.
Qed.

(** ** The examples of the specification *)

(** C7: two paragraph elements give two paragraphs, in source order. *)
Theorem normalize_two_paragraphs :
  htmlToParagraphs (VString (str "<p>A</p><p>B</p>"))
  = Normal [str "A"; str "B"]
  /\ block_boundaries (str "<p>A</p><p>B</p>")
     = str "<p>A" ++ [LF; LF] ++ str "<p>B" ++ [LF; LF].
Proof. split; vm_compute; reflexivity. Qed.

(** C8: two non-breaking-space entities decode to two spaces, which the
    whitespace stage collapses to one. *)
Theorem normalize_nbsp_collapse :
  htmlToParagraphs (VString (str "A&nbsp;&nbsp;B")) = Normal [str "A B"]
  /\ decode_entities (str "A&nbsp;&nbsp;B") = str "A  B"
  /\ normalize_ws (str "A  B") = str "A B".
Proof. repeat split; vm_compute; reflexivity. Qed.

(** C9: the hash-and-digits token is deleted by the noise stage, and the two
    spaces it leaves are collapsed by the whitespace stage that follows. *)
Theorem normalize_hash_digits :
  htmlToParagraphs (VString (str "Text #12345 more"))
  = Normal [str "Text more"]
  /\ remove_noise (str "Text #12345 more") = str "Text  more"
  /\ normalize_ws (str "Text  more") = str "Text more".
Proof. repeat split; vm_compute; reflexivity. Qed.

(** ** trim *)

Lemma drop_space_split (s : jsstring) :
  exists pre, s = pre ++ drop_space s /\ Forall (fun c => is_space c = true) pre.
Proof.
  induction s as [|c s (pre & E & F)].
  - exists []. split; [reflexivity|constructor].
  - cbn [drop_space]. destruct (is_space c) eqn:Hc.
    + exists (c :: pre). split; [cbn; now rewrite <- E|now constructor].
    + exists []. split; [reflexivity|constructor].
Qed.

Lemma drop_space_head (s r : jsstring) (c : char) :
  drop_space s = c :: r -> is_space c = false.
Proof.
  induction s as [|a s IH]; cbn [drop_space]; [discriminate|].
  destruct (is_space a) eqn:Ha; [exact IH|].
  intros E. now injection E as -> _.
Qed.

Lemma drop_space_id (s : jsstring) (c : char) :
  is_space c = false -> drop_space (c :: s) = c :: s.
Proof. intros H. cbn [drop_space]. now rewrite H. Qed.

Lemma drop_space_idem (s : jsstring) : drop_space (drop_space s) = drop_space s.
Proof.
  destruct (drop_space s) as [|c r] eqn:E; [reflexivity|].
  apply drop_space_id. eapply drop_space_head; eauto.
Qed.

Lemma trimmed_trim_id (s : jsstring) : trimmed s -> trim s = s.
Proof.
  intros [H1 H2]. unfold trim. rewrite H1, H2. apply rev_involutive.
Qed.

Lemma trim_trimmed (s : jsstring) : trimmed (trim s).
Proof.
  unfold trim, trimmed. rewrite rev_involutive, drop_space_idem.
  split; [|reflexivity].
  set (d := drop_space s).
  destruct (drop_space_split (rev d)) as (pre & E & _).
  destruct (drop_space (rev d)) as [|c e] eqn:He; [reflexivity|].
  assert (Hd : d = rev (c :: e) ++ rev pre).
  { rewrite <- rev_app_distr, <- E. now rewrite rev_involutive. }
  destruct (rev (c :: e)) as [|a t] eqn:Hr.
  - apply (f_equal (@List.length _)) in Hr. rewrite length_rev in Hr. discriminate.
  - apply drop_space_id. cbn in Hd.
    apply (drop_space_head s (t ++ rev pre)). exact Hd.
Qed.

Lemma trim_idem (s : jsstring) : trim (trim s) = trim s.
Proof. apply trimmed_trim_id, trim_trimmed. Qed.

Lemma In_split_paragraphs (s p : jsstring) :
  In p (split_paragraphs s) -> p <> [] /\ exists q, p = trim q.
Proof.
  unfold split_paragraphs. rewrite filter_In, in_map_iff.
  intros [(q & <- & _) Ht]. split; [|now exists q].
  intros E. rewrite E in Ht. discriminate.
Qed.

(** C6: every paragraph returned by [htmlToParagraphs] is still non-empty
    after trimming (it is a trimmed, non-empty string). *)
Theorem paragraphs_nonempty_after_trim (input : value)
  (paras : list jsstring) (p : jsstring) :
  htmlToParagraphs input = Normal paras ->
  In p paras ->
  trim p <> [] /\ trim p = p.
Proof.
  intros H Hin.
  assert (Hp : p <> [] /\ exists q, p = trim q).
  { destruct input as [| |[|]|raw]; try discriminate H;
      try (injection H as <-; now destruct Hin).
    rewrite htmlToParagraphs_string in H. injection H as <-.
    unfold clean, from_strip in Hin. now apply In_split_paragraphs in Hin. }
  destruct Hp as [Hne (q & ->)]. rewrite trim_idem. now split.
Qed.

Lemma paragraphs_nonempty_after_trim_witness :
  trim (str "A") <> [] /\ trim (str "A") = str "A".
Proof.
  apply (paragraphs_nonempty_after_trim
           (VString (str "<p>A</p> <p> </p>")) [str "A"]).
  - vm_compute. reflexivity.
  - left. reflexivity.
Defined.

(** ** The matcher and the global replacement *)

(** Induction on the length of a string: the scan of [replace] and [split]
    resumes after a match, at a suffix that is not the tail. *)
Ltac length_induction s IH :=
  induction s as [s IH] using (induction_ltof1 _ (@List.length char));
  unfold ltof in IH.

Lemma star_greedy_le (p : cclass) (k : jsstring -> option nat) :
  (forall s n, k s = Some n -> n <= List.length s) ->
  forall s n, star_greedy p k s = Some n -> n <= List.length s.
Proof.
  intros Hk s. induction s as [|c s IH]; intros n; cbn [star_greedy].
  - apply Hk.
  - destruct (p c); [|apply Hk].
    destruct (star_greedy p k s) as [m|] eqn:E; [|apply Hk].
    intros [= <-]. specialize (IH m eq_refl). cbn. lia.
Qed.

Lemma star_lazy_le (p : cclass) (k : jsstring -> option nat) :
  (forall s n, k s = Some n -> n <= List.length s) ->
  forall s n, star_lazy p k s = Some n -> n <= List.length s.
Proof.
  intros Hk s. induction s as [|c s IH]; intros n; cbn [star_lazy].
  - destruct (k []) eqn:E; [|discriminate]. intros [= <-]. now apply Hk.
  - destruct (k (c :: s)) eqn:E; [intros [= <-]; now apply Hk|].
    destruct (p c); [|discriminate].
    destruct (star_lazy p k s) as [m|]; [|discriminate].
    intros [= <-]. specialize (IH m eq_refl). cbn. lia.
Qed.

Lemma match_len_le (re : regex) :
  forall s n, match_len re s = Some n -> n <= List.length s.
Proof.
  induction re as [|[p|p|p|p] r IH]; intros s n; cbn [match_len].
  - intros [= <-]. lia.
  - destruct s as [|c s]; [discriminate|]. destruct (p c); [|discriminate].
    destruct (match_len r s) as [m|] eqn:E; [|discriminate].
    intros [= <-]. apply IH in E. cbn. lia.
  - destruct s as [|c s]; [apply IH|].
    destruct (p c); [|apply IH].
    destruct (match_len r s) as [m|] eqn:E; [|apply IH].
    intros [= <-]. apply IH in E. cbn. lia.
  - now apply star_greedy_le.
  - now apply star_lazy_le.
Qed.

Lemma replace_go_skip (re : regex) (rep : jsstring) :
  forall k s, k <= List.length s ->
    replace_go re rep k s = replace re rep (skipn k s).
Proof.
  induction k as [|k IH]; intros s Hk; [reflexivity|].
  destruct s as [|c s]; [cbn in Hk; lia|].
  cbn [replace_go skipn]. apply IH. cbn in Hk. lia.
Qed.

Lemma replace_cons (re : regex) (rep : jsstring) (c : char) (s : jsstring) :
  replace re rep (c :: s)
  = match match_len re (c :: s) with
    | Some (S k) => rep ++ replace re rep (skipn k s)
    | Some O => rep ++ c :: replace re rep s
    | None => c :: replace re rep s
    end.
Proof.
  unfold replace at 1. cbn [replace_go].
  destruct (match_len re (c :: s)) as [[|k]|] eqn:E; try reflexivity.
  rewrite replace_go_skip; [reflexivity|].
  apply match_len_le in E. cbn in E. lia.
Qed.

Lemma replace_nil (p : cclass) (r : regex) (rep : jsstring) :
  replace (Chr p :: r) rep [] = [].
Proof. reflexivity. Qed.

(** A match at the head of the string is replaced by [rep]. *)
Lemma replace_match (re : regex) (rep m s : jsstring) :
  m <> [] -> match_len re (m ++ s) = Some (List.length m) ->
  replace re rep (m ++ s) = rep ++ replace re rep s.
Proof.
  intros Hm E. destruct m as [|c m]; [contradiction|].
  cbn [app] in *. rewrite replace_cons, E. cbn [List.length].
  now rewrite skipn_app, skipn_all, Nat.sub_diag.
Qed.

Lemma no_start_app (re : regex) (x1 x2 y : jsstring) :
  no_start re x1 (x2 ++ y) -> no_start re x2 y -> no_start re (x1 ++ x2) y.
Proof.
  induction x1 as [|c x1 IH]; cbn [no_start app]; [easy|].
  intros [H1 H2] H3. rewrite <- app_assoc. split; [exact H1|now apply IH].
Qed.

Lemma no_start_reject (p : cclass) (r : regex) (x y : jsstring) :
  Forall (fun c => p c = false) x -> no_start (Chr p :: r) x y.
Proof.
  induction 1 as [|c x Hc _ IH]; cbn [no_start]; [exact I|].
  split; [|exact IH]. cbn. now rewrite Hc.
Qed.

Lemma replace_no_start (re : regex) (rep x y : jsstring) :
  no_start re x y -> replace re rep (x ++ y) = x ++ replace re rep y.
Proof.
  induction x as [|c x IH]; cbn [no_start app]; [reflexivity|].
  intros [H1 H2]. rewrite replace_cons. cbn [app] in H1. rewrite H1.
  now rewrite IH.
Qed.

Lemma replace_reject (p : cclass) (r : regex) (rep x y : jsstring) :
  Forall (fun c => p c = false) x ->
  replace (Chr p :: r) rep (x ++ y) = x ++ replace (Chr p :: r) rep y.
Proof. intros H. now apply replace_no_start, no_start_reject. Qed.

Lemma replace_reject_all (p : cclass) (r : regex) (rep x : jsstring) :
  Forall (fun c => p c = false) x -> replace (Chr p :: r) rep x = x.
Proof.
  intros H. rewrite <- (app_nil_r x) at 1.
  rewrite replace_reject by exact H. now rewrite replace_nil, app_nil_r.
Qed.

(** *** A character that the rest of the pattern cannot read

    When no atom after the first accepts [x], a match that begins before an
    occurrence of [x] ends before it, whatever follows. *)

Lemma match_len_barrier (r : regex) (x : char) :
  rejects r x = true ->
  forall u v, match_len r (u ++ x :: v) = match_len r u.
Proof.
  unfold rejects.
  induction r as [|it r IH]; intros Hr u v; [reflexivity|].
  cbn [forallb] in Hr. apply andb_true_iff in Hr as [Hx Hr].
  apply negb_true_iff in Hx. specialize (IH Hr).
  destruct it as [p|p|p|p]; cbn [item_class] in Hx; cbn [match_len].
  - destruct u as [|c u]; cbn [app]; [now rewrite Hx|].
    now rewrite IH.
  - destruct u as [|c u]; cbn [app].
    + rewrite Hx. apply (IH [] v).
    + rewrite IH. change (c :: u ++ x :: v) with ((c :: u) ++ x :: v).
      now rewrite IH.
  - induction u as [|c u IHu]; cbn [app star_greedy].
    + rewrite Hx. apply (IH [] v).
    + rewrite IHu. change (c :: u ++ x :: v) with ((c :: u) ++ x :: v).
      now rewrite IH.
  - induction u as [|c u IHu]; cbn [app star_lazy].
    + pose proof (IH [] v) as IH0. cbn [app] in IH0. rewrite IH0, Hx.
      now destruct (match_len r []).
    + change (c :: u ++ x :: v) with ((c :: u) ++ x :: v).
      now rewrite IH, IHu.
Qed.

Lemma replace_barrier (p : cclass) (r : regex) (x : char)
  (rep : jsstring) (v : jsstring) :
  rejects r x = true ->
  forall a,
    replace (Chr p :: r) rep (a ++ x :: v)
    = replace (Chr p :: r) rep a ++ replace (Chr p :: r) rep (x :: v).
Proof.
  intros Hr a.
  length_induction a IH. destruct a as [|c a]; [reflexivity|].
  cbn [app]. rewrite (replace_cons _ _ c (a ++ x :: v)), (replace_cons _ _ c a).
  assert (E : match_len (Chr p :: r) (c :: a ++ x :: v)
              = match_len (Chr p :: r) (c :: a)).
  { cbn [match_len]. now rewrite match_len_barrier. }
  rewrite E.
  destruct (match_len (Chr p :: r) (c :: a)) as [[|k]|] eqn:M.
  - rewrite IH by (cbn; lia). now rewrite <- app_assoc.
  - apply match_len_le in M. cbn in M.
    rewrite skipn_app.
    replace (k - List.length a) with 0 by lia. cbn [skipn].
    rewrite IH by (rewrite length_skipn; cbn; lia).
    now rewrite <- app_assoc.
  - now rewrite IH by (cbn; lia).
Qed.

(** *** A pattern that must end with a character of a class

    When the pattern ends with a mandatory atom [q] and no character of [y]
    is in [q], no match reaches into [y]. *)

Lemma match_len_no_closer (q : cclass) :
  forall r0 y, Forall (fun c => q c = false) y ->
    match_len (r0 ++ [Chr q]) y = None.
Proof.
  induction r0 as [|it r IH]; intros y Hy; cbn [app].
  - destruct Hy as [|c y Hc _]; cbn; [reflexivity|now rewrite Hc].
  - destruct it as [p|p|p|p]; cbn [match_len].
    + destruct Hy as [|c y Hc Hy]; [reflexivity|].
      rewrite (IH y Hy). now destruct (p c).
    + destruct Hy as [|c y Hc Hy]; [now apply IH|].
      rewrite (IH y Hy), (IH (c :: y)) by now constructor.
      now destruct (p c).
    + induction Hy as [|c y Hc Hy IHy]; cbn [star_greedy].
      * now apply IH.
      * rewrite IHy, (IH (c :: y)) by now constructor. now destruct (p c).
    + induction Hy as [|c y Hc Hy IHy]; cbn [star_lazy].
      * now rewrite IH.
      * rewrite IHy, (IH (c :: y)) by now constructor. now destruct (p c).
Qed.

Lemma match_len_closer (q : cclass) (y : jsstring) :
  Forall (fun c => q c = false) y ->
  forall r0 u,
    match_len (r0 ++ [Chr q]) (u ++ y) = match_len (r0 ++ [Chr q]) u.
Proof.
  intros Hy.
  assert (Hnil : forall r0,
             match_len (r0 ++ [Chr q]) y = match_len (r0 ++ [Chr q]) []).
  { intros r0. now rewrite !match_len_no_closer. }
  induction r0 as [|it r IH]; intros u.
  - destruct u as [|c u]; [apply (Hnil [])|reflexivity].
  - destruct it as [p|p|p|p].
    + destruct u as [|c u]; [apply (Hnil (Chr p :: r))|].
      cbn [app match_len]. now rewrite IH.
    + destruct u as [|c u]; [apply (Hnil (Opt p :: r))|].
      cbn [app match_len]. rewrite IH.
      change (c :: u ++ y) with ((c :: u) ++ y). now rewrite IH.
    + cbn [app match_len]. induction u as [|c u IHu].
      * apply (Hnil (Star p :: r)).
      * cbn [app star_greedy]. rewrite IHu.
        change (c :: u ++ y) with ((c :: u) ++ y). now rewrite IH.
    + cbn [app match_len]. induction u as [|c u IHu].
      * apply (Hnil (StarLazy p :: r)).
      * cbn [app star_lazy]. rewrite IHu.
        change (c :: u ++ y) with ((c :: u) ++ y). now rewrite IH.
Qed.

Lemma replace_no_closer (q : cclass) (r0 : regex) (rep y : jsstring) :
  Forall (fun c => q c = false) y -> replace (r0 ++ [Chr q]) rep y = y.
Proof.
  induction 1 as [|c y Hc Hy IH].
  - unfold replace. cbn [replace_go]. now rewrite match_len_no_closer.
  - rewrite replace_cons, match_len_no_closer by now constructor.
    now rewrite IH.
Qed.

Lemma replace_closer (q : cclass) (r0 : regex) (rep y : jsstring) :
  Forall (fun c => q c = false) y ->
  forall a,
    replace (r0 ++ [Chr q]) rep (a ++ y) = replace (r0 ++ [Chr q]) rep a ++ y.
Proof.
  intros Hy a.
  length_induction a IH. destruct a as [|c a].
  - cbn [app]. rewrite replace_no_closer by exact Hy.
    unfold replace. cbn [replace_go].
    now rewrite match_len_no_closer by constructor.
  - cbn [app]. rewrite (replace_cons _ _ c (a ++ y)), (replace_cons _ _ c a).
    change (c :: a ++ y) with ((c :: a) ++ y).
    rewrite match_len_closer by exact Hy.
    destruct (match_len (r0 ++ [Chr q]) (c :: a)) as [[|k]|] eqn:M.
    + rewrite IH by (cbn; lia). now rewrite <- app_assoc.
    + apply match_len_le in M. cbn in M.
      rewrite skipn_app.
      replace (k - List.length a) with 0 by lia. cbn [skipn].
      rewrite IH by (rewrite length_skipn; cbn; lia).
      now rewrite <- app_assoc.
    + now rewrite IH by (cbn; lia).
Qed.

(** *** Runs and literals *)

Lemma star_greedy_run (p : cclass) (k : jsstring -> option nat)
  (w s : jsstring) (n : nat) :
  Forall (fun c => p c = true) w ->
  star_greedy p k s = Some n ->
  star_greedy p k (w ++ s) = Some (List.length w + n).
Proof.
  intros Hw Hs. induction Hw as [|c w Hc _ IH]; [exact Hs|].
  cbn [app star_greedy List.length]. now rewrite Hc, IH.
Qed.

Lemma star_lazy_run (p q : cclass) (r : regex) (w s : jsstring) :
  Forall (fun c => p c = true /\ q c = false) w ->
  star_lazy p (match_len (Chr q :: r)) (w ++ s)
  = option_map (Nat.add (List.length w))
      (star_lazy p (match_len (Chr q :: r)) s).
Proof.
  induction 1 as [|c w [Hp Hq] _ IH].
  - cbn [app List.length]. now destruct (star_lazy _ _ s).
  - assert (K : match_len (Chr q :: r) (c :: w ++ s) = None)
      by (cbn [match_len]; now rewrite Hq).
    cbn [app star_lazy List.length]. rewrite K, Hp, IH.
    now destruct (star_lazy _ _ s).
Qed.

Lemma match_len_lit (L t : jsstring) (r : regex) (s : jsstring) :
  ci_eq L t ->
  match_len (map (fun c => Chr (ci c)) L ++ r) (t ++ s)
  = option_map (Nat.add (List.length t)) (match_len r s).
Proof.
  induction 1 as [|pc c L t Hc _ IH].
  - cbn. now destruct (match_len r s).
  - cbn [map app match_len List.length]. rewrite Hc, IH.
    now destruct (match_len r s).
Qed.

Lemma ci_canon (a b x : char) :
  ci a x = true -> ci b x = true -> canon a = canon b.
Proof.
  unfold ci. intros H1 H2.
  apply N.eqb_eq in H1, H2. congruence.
Qed.

(** A pattern character that is no letter stands for itself alone. *)
Lemma ci_other (c x : char) :
  (c < 65 \/ 90 < c /\ c < 97 \/ 122 < c)%N -> ci c x = (x =? c)%N.
Proof.
  intros Hc. unfold ci, canon.
  destruct (N.leb_spec 97 x), (N.leb_spec x 122), (N.leb_spec 97 c),
    (N.leb_spec c 122); cbn [andb];
    destruct (N.eqb_spec x c); subst;
    try (apply N.eqb_refl); try (apply N.eqb_neq); lia.
Qed.

Lemma ci_LT (x : char) : ci LT x = (x =? LT)%N.
Proof. apply ci_other. unfold LT. lia. Qed.

Lemma ci_GT (x : char) : ci GT x = (x =? GT)%N.
Proof. apply ci_other. unfold GT. lia. Qed.

Lemma lacks_app (c : char) (s t : jsstring) :
  lacks c (s ++ t) <-> lacks c s /\ lacks c t.
Proof. apply Forall_app. Qed.

Lemma lacks_ci (c : char) (s : jsstring) :
  (c < 65 \/ 90 < c /\ c < 97 \/ 122 < c)%N ->
  lacks c s -> Forall (fun x => ci c x = false) s.
Proof.
  intros Hc H. eapply Forall_impl; [|exact H].
  intros x Hx. now rewrite ci_other.
Qed.

(** ** Line-break tags *)

Lemma re_br_head :
  re_br = Chr (ci LT)
          :: (lit_ci "br" ++ [Star is_space; Opt (ci SLASH); Chr (ci GT)]).
Proof. reflexivity. Qed.

Lemma match_len_br (tag ws sl b : jsstring) :
  ci_eq (str "<br") tag ->
  Forall (fun c => is_space c = true) ws ->
  sl = [] \/ sl = [SLASH] ->
  match_len re_br ((tag ++ ws ++ sl ++ [GT]) ++ b)
  = Some (List.length (tag ++ ws ++ sl ++ [GT])).
Proof.
  intros Ht Hw Hsl. unfold re_br, lit_ci.
  rewrite <- !app_assoc, match_len_lit by exact Ht.
  cbn [match_len].
  rewrite (star_greedy_run _ _ ws _ (List.length (sl ++ [GT]))) by
    (try exact Hw; destruct Hsl as [-> | ->]; reflexivity).
  cbn [option_map]. now rewrite !length_app.
Qed.

Lemma replace_br_tag (a tag ws sl b : jsstring) :
  ci_eq (str "<br") tag ->
  Forall (fun c => is_space c = true) ws ->
  sl = [] \/ sl = [SLASH] ->
  replace re_br [LF] (a ++ tag ++ ws ++ sl ++ GT :: b)
  = replace re_br [LF] a ++ LF :: replace re_br [LF] b.
Proof.
  intros Ht Hw Hsl.
  assert (Hm := match_len_br tag ws sl b Ht Hw Hsl).
  replace (a ++ tag ++ ws ++ sl ++ GT :: b)
    with (a ++ (tag ++ ws ++ sl ++ [GT]) ++ b)
    by (now rewrite <- !app_assoc).
  set (m := tag ++ ws ++ sl ++ [GT]) in *.
  assert (Hhd : exists m', m = LT :: m').
  { inversion Ht as [|pc c L t Hc Ht' E1 E2]. subst.
    rewrite ci_LT in Hc. apply N.eqb_eq in Hc. subst c.
    now exists (t ++ ws ++ sl ++ [GT]). }
  destruct Hhd as (m' & Em). rewrite Em in *.
  cbn [app]. rewrite re_br_head in *.
  rewrite replace_barrier by reflexivity. f_equal.
  change (LT :: m' ++ b) with ((LT :: m') ++ b).
  now rewrite replace_match.
Qed.

Lemma replace_split_at (p : cclass) (r : regex) (x : char)
  (rep a v : jsstring) :
  rejects r x = true -> p x = false ->
  replace (Chr p :: r) rep (a ++ x :: v)
  = replace (Chr p :: r) rep a ++ x :: replace (Chr p :: r) rep v.
Proof.
  intros Hr Hp. rewrite replace_barrier by exact Hr. f_equal.
  rewrite replace_cons. cbn [match_len]. now rewrite Hp.
Qed.

(** On the string that the block-boundary stage receives: a line-break tag
    written [<br], then any white space, then an optional slash, then [>]
    (letters in either case) is turned into one newline wherever it stands;
    the rest of the string is converted independently. *)
Lemma br_becomes_newline (a tag ws sl b : jsstring) :
  ci_eq (str "<br") tag ->
  Forall (fun c => is_space c = true) ws ->
  sl = [] \/ sl = [SLASH] ->
  block_boundaries (a ++ tag ++ ws ++ sl ++ GT :: b)
  = block_boundaries a ++ LF :: block_boundaries b.
Proof.
  intros Ht Hw Hsl.
  unfold block_boundaries.
  rewrite replace_br_tag by assumption.
  change re_p_close with (Chr (ci LT) :: lit_ci "/p>").
  change re_div_close with (Chr (ci LT) :: lit_ci "/div>").
  change re_h_close
    with (Chr (ci LT) :: lit_ci "/h" ++ [Chr is_1_6; Chr (ci GT)]).
  now rewrite !replace_split_at by reflexivity.
Qed.

(** ** What a replacement leaves in place *)

Lemma match_len_reads (re : regex) :
  forall s n, match_len re s = Some n ->
    Forall (fun c => reads re c = true) (firstn n s).
Proof.
  induction re as [|it r IH]; intros s n.
  - intros [= <-]. constructor.
  - assert (Hmono : forall s n, match_len r s = Some n ->
              Forall (fun c => reads (it :: r) c = true) (firstn n s)).
    { intros s0 n0 H. eapply Forall_impl; [|exact (IH _ _ H)].
      intros c Hc. cbn [reads existsb]. fold (reads r c).
      rewrite Hc. apply orb_true_r. }
    assert (Hhd : forall c, item_class it c = true ->
              reads (it :: r) c = true).
    { intros c Hc. cbn [reads existsb]. now rewrite Hc. }
    destruct it as [p|p|p|p]; cbn [match_len item_class] in *.
    + destruct s as [|c s]; [discriminate|].
      destruct (p c) eqn:Hc; [|discriminate].
      destruct (match_len r s) as [m|] eqn:E; [|discriminate].
      intros [= <-]. cbn [firstn]. constructor; auto.
    + destruct s as [|c s]; [apply Hmono|].
      destruct (p c) eqn:Hc; [|apply Hmono].
      destruct (match_len r s) as [m|] eqn:E; [|apply Hmono].
      intros [= <-]. cbn [firstn]. constructor; auto.
    + revert n. induction s as [|c s IHs]; intros n; cbn [star_greedy].
      * apply Hmono.
      * destruct (p c) eqn:Hc; [|apply Hmono].
        destruct (star_greedy p (match_len r) s) as [m|] eqn:E;
          [|apply Hmono].
        intros [= <-]. cbn [firstn]. constructor; auto.
    + revert n. induction s as [|c s IHs]; intros n; cbn [star_lazy].
      * destruct (match_len r []) eqn:E; [|discriminate].
        intros [= <-]. now apply Hmono.
      * destruct (match_len r (c :: s)) eqn:E;
          [intros [= <-]; now apply Hmono|].
        destruct (p c) eqn:Hc; [|discriminate].
        destruct (star_lazy p (match_len r) s) as [m|] eqn:E';
          [|discriminate].
        intros [= <-]. cbn [firstn]. constructor; auto.
Qed.

Lemma replace_keeps (re : regex) (rep : jsstring) (x : char) :
  reads re x = false ->
  forall s, In x s -> In x (replace re rep s).
Proof.
  intros Hx s.
  length_induction s IH. destruct s as [|c s]; [intros []|].
  intros Hin. rewrite replace_cons.
  destruct (match_len re (c :: s)) as [[|k]|] eqn:M.
  - apply in_or_app. right. destruct Hin as [->|Hin]; [now left|].
    right. apply IH; [cbn; lia|exact Hin].
  - apply in_or_app. right.
    pose proof (match_len_reads _ _ _ M) as F.
    rewrite <- (firstn_skipn (S k) (c :: s)) in Hin.
    apply in_app_or in Hin as [Hin|Hin].
    + rewrite Forall_forall in F. apply F in Hin. congruence.
    + cbn [skipn] in Hin. apply IH; [|exact Hin].
      rewrite length_skipn. cbn. lia.
  - destruct Hin as [->|Hin]; [now left|].
    right. apply IH; [cbn; lia|exact Hin].
Qed.

Lemma drop_space_keeps (x : char) (s : jsstring) :
  is_space x = false -> In x s -> In x (drop_space s).
Proof.
  intros Hx. induction s as [|c s IH]; [intros []|].
  cbn [drop_space]. destruct (is_space c) eqn:Hc; [|easy].
  intros [->|Hin]; [congruence|auto].
Qed.

Lemma trim_keeps (x : char) (s : jsstring) :
  is_space x = false -> In x s -> In x (trim s).
Proof.
  intros Hx Hin. unfold trim.
  apply in_rev. rewrite rev_involutive.
  apply drop_space_keeps; [exact Hx|].
  apply -> in_rev. now apply drop_space_keeps.
Qed.

(** ** split *)

Lemma split_go_skip (re : regex) :
  forall k s, k <= List.length s ->
    split_go re k true s = split_go re O true (skipn k s).
Proof.
  induction k as [|k IH]; intros s Hk; [reflexivity|].
  destruct s as [|c s]; [cbn in Hk; lia|].
  cbn [split_go skipn]. apply IH. cbn in Hk. lia.
Qed.

Lemma split_go_cons (re : regex) (b : bool) (c : char) (s : jsstring) :
  split_go re O b (c :: s)
  = match match_len re (c :: s) with
    | Some (S k) => [] :: split_go re O true (skipn k s)
    | Some O =>
        if b then push_char c (split_go re O false s)
        else [] :: push_char c (split_go re O false s)
    | None => push_char c (split_go re O false s)
    end.
Proof.
  cbn [split_go].
  destruct (match_len re (c :: s)) as [[|k]|] eqn:E; try reflexivity.
  rewrite split_go_skip; [reflexivity|].
  apply match_len_le in E. cbn in E. lia.
Qed.

Lemma push_char_keeps (c x : char) (l : list jsstring) :
  (x = c \/ exists seg, In seg l /\ In x seg) ->
  exists seg, In seg (push_char c l) /\ In x seg.
Proof.
  destruct l as [|hd tl]; cbn [push_char].
  - intros [->|(seg & [] & _)]. exists [c]. split; now left.
  - intros [->|(seg & [<-|Hin] & Hx)].
    + exists (c :: hd). split; now left.
    + exists (c :: hd). split; [now left|now right].
    + exists seg. split; [now right|exact Hx].
Qed.

Lemma split_go_keeps (re : regex) (x : char) :
  reads re x = false ->
  forall s b, In x s -> exists seg, In seg (split_go re O b s) /\ In x seg.
Proof.
  intros Hx s.
  length_induction s IH. destruct s as [|c s]; [intros ? []|].
  intros b Hin. rewrite split_go_cons.
  assert (Hpush : exists seg,
             In seg (push_char c (split_go re O false s)) /\ In x seg).
  { apply push_char_keeps. destruct Hin as [->|Hin]; [now left|right].
    apply IH; [cbn; lia|exact Hin]. }
  assert (Hpush' : exists seg,
             In seg ([] :: push_char c (split_go re O false s)) /\ In x seg).
  { destruct Hpush as (seg & H1 & H2). exists seg. split; [now right|easy]. }
  destruct (match_len re (c :: s)) as [[|k]|] eqn:M; [now destruct b| |easy].
  pose proof (match_len_reads _ _ _ M) as F.
  rewrite <- (firstn_skipn (S k) (c :: s)) in Hin.
  apply in_app_or in Hin as [Hin|Hin].
  - rewrite Forall_forall in F. apply F in Hin. congruence.
  - cbn [skipn] in Hin.
    destruct (IH (skipn k s)) with (b := true) as (seg & H1 & H2);
      [rewrite length_skipn; cbn; lia|exact Hin|].
    exists seg. split; [now right|exact H2].
Qed.

Lemma split_keeps (re : regex) (x : char) (s : jsstring) :
  reads re x = false -> In x s ->
  exists seg, In seg (split re s) /\ In x seg.
Proof.
  intros Hx Hin. destruct s as [|c s]; [destruct Hin|].
  now apply split_go_keeps.
Qed.

Lemma plain_not_space (x : char) : plain x = true -> is_space x = false.
Proof.
  unfold plain. intros H. apply negb_true_iff in H.
  now destruct (is_space x).
Qed.

Lemma plain_unread (x : char) :
  plain x = true ->
  reads re_hash x = false /\ reads re_amps x = false
  /\ reads re_cr x = false /\ reads re_tab x = false
  /\ reads re_spaces x = false /\ reads re_nl3 x = false
  /\ reads re_nl2 x = false.
Proof.
  unfold plain. intros H. apply negb_true_iff in H.
  apply orb_false_iff in H as [H Hamp].
  apply orb_false_iff in H as [H Hhash].
  apply orb_false_iff in H as [Hsp Hdig].
  assert (Hcr : (x =? CR)%N = false).
  { destruct (N.eqb_spec x CR) as [->|]; [discriminate Hsp|reflexivity]. }
  assert (Htab : (x =? TAB)%N = false).
  { destruct (N.eqb_spec x TAB) as [->|]; [discriminate Hsp|reflexivity]. }
  assert (Hspc : (x =? SP)%N = false).
  { destruct (N.eqb_spec x SP) as [->|]; [discriminate Hsp|reflexivity]. }
  assert (Hlf : (x =? LF)%N = false).
  { destruct (N.eqb_spec x LF) as [->|]; [discriminate Hsp|reflexivity]. }
  unfold reads, re_hash, re_amps, re_cr, re_tab, re_spaces, re_nl3, re_nl2,
    at_least, only.
  cbn [repeat app existsb item_class].
  now rewrite ?Hamp, ?Hhash, ?Hdig, ?Hcr, ?Htab, ?Hspc, ?Hlf.
Qed.

Lemma from_noise_keeps (x : char) (s : jsstring) :
  plain x = true -> In x s ->
  exists p, In p (split_paragraphs (normalize_ws (remove_noise s)))
            /\ In x p.
Proof.
  intros Hp Hin.
  destruct (plain_unread x Hp) as (H1 & H2 & H3 & H4 & H5 & H6 & H7).
  pose proof (plain_not_space x Hp) as Hs.
  assert (H : In x (normalize_ws (remove_noise s))).
  { unfold normalize_ws, remove_noise.
    apply trim_keeps; [exact Hs|].
    repeat (apply replace_keeps; [assumption|]). exact Hin. }
  destruct (split_keeps re_nl2 x _ H7 H) as (seg & Hseg & Hx).
  exists (trim seg). unfold split_paragraphs.
  assert (Ht : In x (trim seg)) by now apply trim_keeps.
  split; [|exact Ht].
  apply filter_In. split; [now apply in_map|].
  now destruct (trim seg).
Qed.

(** ** An angle bracket that is never closed *)

Lemma re_tag_closer :
  re_tag = [Chr (only LT); Chr not_gt; Star not_gt] ++ [Chr (only GT)].
Proof. reflexivity. Qed.

Lemma strip_tags_unclosed (a b : jsstring) :
  lacks GT b -> strip_tags (a ++ LT :: b) = strip_tags a ++ LT :: b.
Proof.
  intros Hb. unfold strip_tags. rewrite re_tag_closer.
  apply replace_closer. constructor; [reflexivity|exact Hb].
Qed.

Lemma unclosed_in_output (raw a b : jsstring) :
  before_strip raw = a ++ LT :: b ->
  lacks GT b ->
  exists paras p,
    htmlToParagraphs (VString raw) = Normal paras /\ In p paras /\ In LT p.
Proof.
  intros E Hb.
  pose proof (strip_tags_unclosed a b Hb) as Hs.
  destruct (from_noise_keeps LT (strip_tags (a ++ LT :: b)) eq_refl)
    as (p & Hp & Hx).
  { rewrite Hs. apply in_or_app. right. now left. }
  exists (clean raw), p. split; [|split; [|exact Hx]].
  - apply htmlToParagraphs_string.
  - unfold clean, from_strip. now rewrite E.
Qed.

Lemma ci_SEMI (x : char) : ci SEMI x = (x =? SEMI)%N.
Proof. apply ci_other. unfold SEMI. lia. Qed.

(** ** Script and style blocks *)

Lemma ci_eq_lacks (x : char) (L t : jsstring) :
  nonletter x -> ci_eq L t -> lacks x L -> lacks x t.
Proof.
  intros Hx H. induction H as [|pc c L t Hc _ IH]; [constructor|].
  intros HL. inversion HL as [|? ? Hpc HL']. subst.
  constructor; [|now apply IH].
  destruct (N.eqb_spec c x) as [->|]; [|reflexivity].
  exfalso. unfold ci, canon in Hc. unfold nonletter in Hx.
  apply N.eqb_neq in Hpc. apply N.eqb_eq in Hc.
  destruct (N.leb_spec 97 x), (N.leb_spec x 122), (N.leb_spec 97 pc),
    (N.leb_spec pc 122); cbn [andb] in Hc; lia.
Qed.

Lemma match_len_StarLazy (p : cclass) (r : regex) (s : jsstring) :
  match_len (StarLazy p :: r) s = star_lazy p (match_len r) s.
Proof. reflexivity. Qed.

Lemma match_len_Chr (p : cclass) (r : regex) (c : char) (s : jsstring) :
  p c = true ->
  match_len (Chr p :: r) (c :: s) = option_map S (match_len r s).
Proof. intros H. cbn [match_len]. now rewrite H. Qed.

Lemma star_lazy_hit (p : cclass) (k : jsstring -> option nat)
  (s : jsstring) (n : nat) :
  k s = Some n -> star_lazy p k s = Some n.
Proof. intros H. destruct s; cbn [star_lazy]; now rewrite H. Qed.

Lemma ci_differs (a b x : char) :
  ci a x = true -> canon a <> canon b -> ci b x = false.
Proof.
  intros H Hab. destruct (ci b x) eqn:E; [|reflexivity].
  exfalso. apply Hab. eapply ci_canon; eauto.
Qed.

Lemma re_script_shape :
  re_script = map (fun c => Chr (ci c)) (LT :: str "script")
              ++ [StarLazy any; Chr (ci GT); StarLazy any]
              ++ map (fun c => Chr (ci c)) (LT :: str "/script>").
Proof. reflexivity. Qed.

Lemma re_style_shape :
  re_style = map (fun c => Chr (ci c)) (LT :: str "style")
             ++ [StarLazy any; Chr (ci GT); StarLazy any]
             ++ map (fun c => Chr (ci c)) (LT :: str "/style>").
Proof. reflexivity. Qed.

Lemma decode_entities_prefix (x y : jsstring) :
  lacks AMP x -> decode_entities (x ++ y) = x ++ decode_entities y.
Proof.
  intros Hx. unfold decode_entities.
  assert (H : Forall (fun c => ci AMP c = false) x)
    by (apply lacks_ci; [unfold AMP; lia|exact Hx]).
  change re_nbsp with (Chr (ci AMP) :: lit_ci "nbsp;").
  change re_amp with (Chr (ci AMP) :: lit_ci "amp;").
  change re_39 with (Chr (ci AMP) :: lit_ci "#39;").
  change re_quot with (Chr (ci AMP) :: lit_ci "quot;").
  change re_lt with (Chr (ci AMP) :: lit_ci "lt;").
  change re_gt with (Chr (ci AMP) :: lit_ci "gt;").
  now rewrite !replace_reject by exact H.
Qed.

(** C2, as the claim has it, fails: the deletion is one pass, and a script
    block that comes together only when an inner block has been deleted is
    not deleted.  It reaches the generic tag stripping, which removes its two
    tags and leaves its content in the output. *)
Lemma script_text_exposed :
  before_strip (str "<scr<script></script>ipt>evil()</script><p>Safe</p>")
  = str "<script>evil()</script>Safe" ++ [LF; LF]
  /\ match_len re_script (str "<script>evil()</script>Safe" ++ [LF; LF])
     = Some 23
  /\ htmlToParagraphs
       (VString (str "<scr<script></script>ipt>evil()</script><p>Safe</p>"))
     = Normal [str "evil()Safe"].
Proof. repeat split; vm_compute; reflexivity. Qed.


(** ** Runs of one character *)

Lemma star_greedy_only (c : char) (s : jsstring) :
  star_greedy (only c) (match_len []) s = Some (run_length c s).
Proof.
  induction s as [|x s IH]; [reflexivity|].
  cbn [star_greedy run_length]. unfold only at 1. rewrite IH.
  now destruct (x =? c)%N.
Qed.

Lemma match_len_at_least (n : nat) (c : char) :
  forall s,
    match_len (at_least n (only c)) s
    = if n <=? run_length c s then Some (run_length c s) else None.
Proof.
  unfold at_least. induction n as [|n IH]; intros s.
  - cbn [repeat app match_len]. apply star_greedy_only.
  - cbn [repeat app match_len]. destruct s as [|x s]; [reflexivity|].
    cbn [run_length]. unfold only at 1.
    destruct (x =? c)%N; [|reflexivity].
    rewrite IH. cbn [Nat.leb]. now destruct (n <=? run_length c s).
Qed.

Lemma skipn_run_length (c : char) (s : jsstring) :
  run_length c (skipn (run_length c s) s) = 0.
Proof.
  induction s as [|x s IH]; [reflexivity|].
  cbn [run_length]. destruct (x =? c)%N eqn:E; cbn [skipn]; [exact IH|].
  cbn [run_length]. now rewrite E.
Qed.

Lemma run_length_le (c : char) (s : jsstring) :
  run_length c s <= List.length s.
Proof.
  induction s as [|x s IH]; cbn [run_length List.length]; [lia|].
  destruct (x =? c)%N; lia.
Qed.

Lemma run_length_app_le (c : char) (x y : jsstring) :
  run_length c x <= run_length c (x ++ y).
Proof.
  induction x as [|d x IH]; cbn [run_length app]; [lia|].
  destruct (d =? c)%N; lia.
Qed.

Lemma runs_below_skipn (n : nat) (c : char) (k : nat) (s : jsstring) :
  runs_below n c s -> runs_below n c (skipn k s).
Proof.
  revert s. induction k as [|k IH]; intros s H; [exact H|].
  destruct s as [|x s]; [exact I|]. cbn [skipn]. apply IH. now destruct H.
Qed.

Lemma runs_below_app_l (n : nat) (c : char) (x y : jsstring) :
  runs_below n c (x ++ y) -> runs_below n c x.
Proof.
  induction x as [|d x IH]; [easy|].
  cbn [app runs_below]. intros [H1 H2]. split; [|now apply IH].
  pose proof (run_length_app_le c (d :: x) y). cbn [app] in *. lia.
Qed.

Lemma runs_below_app_r (n : nat) (c : char) (x y : jsstring) :
  runs_below n c (x ++ y) -> runs_below n c y.
Proof.
  induction x as [|d x IH]; [easy|].
  cbn [app runs_below]. intros [_ H]. now apply IH.
Qed.

Lemma runs_below_lacks_app (n : nat) (c : char) (x y : jsstring) :
  0 < n -> lacks c x -> runs_below n c y -> runs_below n c (x ++ y).
Proof.
  intros Hn Hx Hy. induction Hx as [|d x Hd _ IH]; [exact Hy|].
  cbn [app runs_below run_length]. rewrite Hd. now split.
Qed.

(** A string whose runs of [c] are all shorter than [n] has nothing for
    [c{n,}] to replace. *)
Lemma replace_runs_below (n : nat) (c : char) (rep s : jsstring) :
  0 < n -> runs_below n c s -> replace (at_least n (only c)) rep s = s.
Proof.
  intros Hn. induction s as [|x s IH].
  - intros _. unfold replace. cbn [replace_go].
    rewrite match_len_at_least. cbn [run_length].
    destruct n; [lia|reflexivity].
  - intros [H1 H2]. rewrite replace_cons, match_len_at_least.
    destruct (Nat.leb_spec n (run_length c (x :: s))); [lia|].
    now rewrite IH.
Qed.

Lemma replace_at_least_cons (n : nat) (c : char) (rep : jsstring)
  (x : char) (s : jsstring) :
  0 < n ->
  replace (at_least n (only c)) rep (x :: s)
  = if n <=? run_length c (x :: s)
    then rep ++ replace (at_least n (only c)) rep
                  (skipn (run_length c (x :: s)) (x :: s))
    else x :: replace (at_least n (only c)) rep s.
Proof.
  intros Hn. rewrite replace_cons, match_len_at_least.
  destruct (Nat.leb_spec n (run_length c (x :: s))) as [H|H]; [|reflexivity].
  destruct (run_length c (x :: s)) as [|k]; [lia|reflexivity].
Qed.

(** After [c{n,}] has been replaced by a shorter run of [c], every run of
    [c] is shorter than [n]. *)
Lemma replace_at_least_runs (n m : nat) (c : char) :
  0 < m -> m < n ->
  forall s,
    runs_below n c (replace (at_least n (only c)) (repeat c m) s)
    /\ run_length c (replace (at_least n (only c)) (repeat c m) s)
       = (if n <=? run_length c s then m else run_length c s).
Proof.
  intros Hm Hn s.
  length_induction s IH. destruct s as [|x s].
  - unfold replace. cbn [replace_go]. rewrite match_len_at_least.
    cbn [run_length]. destruct n; [lia|]. cbn. now split.
  - rewrite replace_at_least_cons by lia.
    destruct (Nat.leb_spec n (run_length c (x :: s))) as [H|H].
    + pose proof (run_length_le c (x :: s)) as Hle.
      destruct (IH (skipn (run_length c (x :: s)) (x :: s))) as [R1 R2].
      { rewrite length_skipn. cbn [List.length] in *. lia. }
      rewrite skipn_run_length in R2.
      assert (R0 : run_length c
                (replace (at_least n (only c)) (repeat c m)
                   (skipn (run_length c (x :: s)) (x :: s))) = 0).
      { rewrite R2. destruct n; [lia|reflexivity]. }
      clear R2 H Hle IH.
      set (X := replace _ _ _) in *. clearbody X.
      assert (G : forall j, j <= m ->
                runs_below n c (repeat c j ++ X)
                /\ run_length c (repeat c j ++ X) = j).
      { induction j as [|j IHj]; intros Hj; [now split|].
        destruct IHj as [G1 G2]; [lia|].
        cbn [repeat app runs_below run_length]. rewrite N.eqb_refl, G2.
        repeat split; [lia|exact G1]. }
      apply G. lia.
    + destruct (IH s) as [R1 R2]; [cbn; lia|].
      cbn [runs_below]. 
      assert (E : run_length c
                (x :: replace (at_least n (only c)) (repeat c m) s)
              = run_length c (x :: s)).
      { cbn [run_length] in *. destruct (x =? c)%N; [|reflexivity].
        rewrite R2. destruct (Nat.leb_spec n (run_length c s)); [lia|easy]. }
      rewrite E. repeat split; [lia|exact R1].
Qed.

(** A replacement that neither reads nor writes [c] leaves the runs of [c]
    as short as they were. *)
Lemma replace_other_runs (n : nat) (c : char) (p : cclass) (r : regex)
  (rep : jsstring) :
  0 < n -> p c = false -> rep <> [] -> lacks c rep ->
  forall s, runs_below n c s ->
    runs_below n c (replace (Chr p :: r) rep s)
    /\ run_length c (replace (Chr p :: r) rep s) = run_length c s.
Proof.
  intros Hn Hp Hrep Hl s.
  assert (Hrun : forall X, run_length c (rep ++ X) = 0).
  { intros X. destruct Hl as [|d rep' Hd _]; [contradiction|].
    cbn [app run_length]. now rewrite Hd. }
  length_induction s IH. destruct s as [|x s]; [now split|].
  intros [H1 H2]. rewrite replace_cons.
  destruct (match_len (Chr p :: r) (x :: s)) as [k|] eqn:M.
  - assert (Hx : (x =? c)%N = false).
    { cbn [match_len] in M. destruct (x =? c)%N eqn:E; [|reflexivity].
      apply N.eqb_eq in E. subst x. now rewrite Hp in M. }
    assert (H0 : run_length c (x :: s) = 0) by (cbn; now rewrite Hx).
    destruct k as [|k].
    + rewrite Hrun, H0. split; [|reflexivity].
      apply runs_below_lacks_app; [exact Hn|exact Hl|].
      destruct (IH s) as [R1 R2]; [cbn; lia|exact H2|].
      cbn [runs_below run_length]. rewrite Hx. now split.
    + rewrite Hrun, H0. split; [|reflexivity].
      apply runs_below_lacks_app; [exact Hn|exact Hl|].
      apply match_len_le in M. cbn in M.
      apply IH; [rewrite length_skipn; cbn; lia|].
      now apply runs_below_skipn.
  - destruct (IH s) as [R1 R2]; [cbn; lia|exact H2|].
    assert (E : run_length c (x :: replace (Chr p :: r) rep s)
                = run_length c (x :: s)).
    { cbn [run_length]. now rewrite R2. }
    cbn [runs_below]. rewrite E. now repeat split.
Qed.

(** What a replacement writes comes from the string or from [rep]. *)
Lemma Forall_skipn {A : Type} (P : A -> Prop) (k : nat) (l : list A) :
  Forall P l -> Forall P (skipn k l).
Proof.
  intros H. rewrite <- (firstn_skipn k l) in H.
  now apply Forall_app in H.
Qed.

Lemma replace_Forall (P : char -> Prop) (re : regex) (rep : jsstring) :
  Forall P rep -> forall s, Forall P s -> Forall P (replace re rep s).
Proof.
  intros Hrep s.
  length_induction s IH. destruct s as [|x s].
  - intros _. unfold replace. cbn [replace_go].
    destruct (match_len re []); [exact Hrep|constructor].
  - intros H. inversion H as [|? ? Hx Hs]. subst.
    rewrite replace_cons.
    destruct (match_len re (x :: s)) as [[|k]|] eqn:M.
    + apply Forall_app. split; [exact Hrep|].
      constructor; [exact Hx|]. apply IH; [cbn; lia|exact Hs].
    + apply Forall_app. split; [exact Hrep|].
      apply match_len_le in M. cbn in M.
      apply IH; [rewrite length_skipn; cbn; lia|now apply Forall_skipn].
    + constructor; [exact Hx|]. apply IH; [cbn; lia|exact Hs].
Qed.

(** Replacing every [c] by a string without [c] leaves no [c]. *)
Lemma replace_single_lacks (c : char) (rep : jsstring) :
  lacks c rep -> forall s, lacks c (replace [Chr (only c)] rep s).
Proof.
  intros Hrep s. induction s as [|x s IH]; [constructor|].
  rewrite replace_cons. cbn [match_len]. unfold only at 1.
  destruct (x =? c)%N eqn:E; cbn [option_map skipn].
  - apply Forall_app. now split.
  - now constructor.
Qed.

(** ** Factors *)

Lemma factor_refl (s : jsstring) : factor s s.
Proof. exists [], []. now rewrite app_nil_r. Qed.

Lemma factor_trans (a b c : jsstring) : factor a b -> factor b c -> factor a c.
Proof.
  intros (p1 & q1 & ->) (p2 & q2 & ->).
  exists (p2 ++ p1), (q1 ++ q2). now rewrite <- !app_assoc.
Qed.

Lemma factor_cons (seg s : jsstring) (x : char) :
  factor seg s -> factor seg (x :: s).
Proof. intros (p & q & ->). now exists (x :: p), q. Qed.

Lemma factor_skipn (seg s : jsstring) (k : nat) :
  factor seg (skipn k s) -> factor seg s.
Proof.
  intros (p & q & E). exists (firstn k s ++ p), q.
  now rewrite <- app_assoc, <- E, firstn_skipn.
Qed.

Lemma factor_Forall (P : char -> Prop) (seg s : jsstring) :
  factor seg s -> Forall P s -> Forall P seg.
Proof.
  intros (p & q & ->) H.
  apply Forall_app in H as [_ H]. now apply Forall_app in H as [H _].
Qed.

Lemma factor_runs_below (n : nat) (c : char) (seg s : jsstring) :
  factor seg s -> runs_below n c s -> runs_below n c seg.
Proof.
  intros (p & q & ->) H.
  apply runs_below_app_r in H. now apply runs_below_app_l in H.
Qed.

Lemma trim_factor (s : jsstring) : factor (trim s) s.
Proof.
  unfold trim.
  destruct (drop_space_split s) as (pre & E1 & _).
  destruct (drop_space_split (rev (drop_space s))) as (pre2 & E2 & _).
  exists pre, (rev pre2).
  rewrite <- rev_app_distr, <- E2, rev_involutive. exact E1.
Qed.

(** ** The segments of the paragraph split *)

Lemma match_len_nl2 (s : jsstring) :
  match_len re_nl2 s
  = if 2 <=? run_length LF s then Some (run_length LF s) else None.
Proof. apply match_len_at_least. Qed.

Lemma split_go_nl2_segments (s : jsstring) :
  forall b,
    exists hd tl,
      split_go re_nl2 O b s = hd :: tl
      /\ (exists post, s = hd ++ post)
      /\ Forall (fun seg => runs_below 2 LF seg /\ factor seg s) (hd :: tl).
Proof.
  length_induction s IH. intros b. destruct s as [|x s].
  - exists [], []. repeat split; [now exists []|].
    constructor; [|constructor]. split; [exact I|apply factor_refl].
  - rewrite split_go_cons, match_len_nl2.
    destruct (Nat.leb_spec 2 (run_length LF (x :: s))) as [H|H].
    + destruct (run_length LF (x :: s)) as [|k] eqn:Er; [lia|].
      pose proof (run_length_le LF (x :: s)) as Hle. rewrite Er in Hle.
      destruct (IH (skipn k s)) with (b := true)
        as (hd & tl & E & _ & F).
      { rewrite length_skipn. cbn in *. lia. }
      exists [], (split_go re_nl2 O true (skipn k s)).
      repeat split; [now exists (x :: s)|].
      constructor.
      * split; [exact I|]. exists [], (x :: s). reflexivity.
      * rewrite E. eapply Forall_impl; [|exact F].
        intros seg [S1 S2]. split; [exact S1|].
        apply (factor_skipn seg (x :: s) (S k)). exact S2.
    + destruct (IH s) with (b := false) as (hd & tl & E & (post & Ep) & F);
        [cbn; lia|].
      rewrite E. cbn [push_char].
      exists (x :: hd), tl. repeat split; [exists post; now rewrite Ep|].
      apply Forall_cons_iff in F as [[S1 S2] Ftl].
      constructor.
      * split.
        -- cbn [runs_below]. split; [|exact S1].
           pose proof (run_length_app_le LF (x :: hd) post) as Hle.
           cbn [app] in Hle. rewrite <- Ep in Hle. lia.
        -- exists [], post. cbn [app]. now rewrite Ep.
      * eapply Forall_impl; [|exact Ftl].
        intros seg [T1 T2]. split; [exact T1|now apply factor_cons].
Qed.

Lemma split_nl2_segments (s : jsstring) :
  Forall (fun seg => runs_below 2 LF seg /\ factor seg s) (split re_nl2 s).
Proof.
  destruct s as [|x s].
  - cbn. constructor; [|constructor]. split; [exact I|apply factor_refl].
  - destruct (split_go_nl2_segments (x :: s) true) as (hd & tl & E & _ & F).
    unfold split. now rewrite E.
Qed.

(** ** The paragraphs that come out *)

Lemma normalize_ws_factor (u : jsstring) :
  exists s4,
    factor (normalize_ws u) s4
    /\ lacks CR s4 /\ lacks TAB s4 /\ runs_below 2 SP s4.
Proof.
  unfold normalize_ws.
  set (s1 := replace re_cr [] u).
  set (s2 := replace re_tab [SP] s1).
  set (s3 := replace re_spaces [SP] s2).
  set (s4 := replace re_nl3 [LF; LF] s3).
  exists s4. split; [apply trim_factor|].
  assert (H1 : lacks CR s1) by (apply replace_single_lacks; constructor).
  assert (H2 : lacks TAB s2)
    by (apply replace_single_lacks; now repeat constructor).
  assert (H2' : lacks CR s2)
    by (apply replace_Forall; [now repeat constructor|exact H1]).
  assert (H3 : runs_below 2 SP s3)
    by (apply (replace_at_least_runs 2 1 SP); lia).
  repeat split.
  - do 2 (apply replace_Forall; [now repeat constructor|]). exact H2'.
  - do 2 (apply replace_Forall; [now repeat constructor|]). exact H2.
  - apply (replace_other_runs 2 SP (only LF) (at_least 2 (only LF))
             [LF; LF]); try easy; try lia.
    now repeat constructor.
Qed.

Lemma paragraphs_clean (u : jsstring) :
  Forall clean_par (split_paragraphs (normalize_ws u)).
Proof.
  apply Forall_forall. intros p Hin.
  unfold split_paragraphs in Hin. apply filter_In in Hin as [Hin Hne].
  apply in_map_iff in Hin as (seg & <- & Hseg).
  pose proof (split_nl2_segments (normalize_ws u)) as F.
  rewrite Forall_forall in F. destruct (F seg Hseg) as [S1 S2].
  destruct (normalize_ws_factor u) as (s4 & F4 & C1 & C2 & C3).
  pose proof (trim_factor seg) as Ft.
  assert (Fp : factor (trim seg) s4)
    by (eapply factor_trans; [exact Ft|]; eapply factor_trans; eauto).
  unfold clean_par. repeat split.
  - intros E. now rewrite E in Hne.
  - apply trim_trimmed.
  - apply trim_trimmed.
  - exact (factor_Forall _ _ _ Fp C1).
  - exact (factor_Forall _ _ _ Fp C2).
  - exact (factor_runs_below _ _ _ _ Fp C3).
  - exact (factor_runs_below _ _ _ _ Ft S1).
Qed.

(** ** Joining the paragraphs and splitting them again *)

Lemma not_space_not (c z : char) :
  is_space c = true -> is_space z = false -> (z =? c)%N = false.
Proof.
  intros Hc Hz. destruct (N.eqb_spec z c) as [->|]; [congruence|reflexivity].
Qed.

Lemma run_length_app_stop (c d : char) (x y : jsstring) :
  (d =? c)%N = false -> run_length c (x ++ d :: y) = run_length c x.
Proof.
  intros Hd. induction x as [|a x IH]; cbn [app run_length].
  - now rewrite Hd.
  - now rewrite IH.
Qed.

Lemma runs_below_sep (n : nat) (c d : char) (x y : jsstring) :
  0 < n -> (d =? c)%N = false ->
  runs_below n c x -> runs_below n c y -> runs_below n c (x ++ d :: y).
Proof.
  intros Hn Hd Hx Hy. induction x as [|a x IH].
  - cbn [app runs_below run_length]. rewrite Hd. now split.
  - destruct Hx as [H1 H2]. cbn [app runs_below]. split; [|now apply IH].
    change (a :: x ++ d :: y) with ((a :: x) ++ d :: y).
    now rewrite run_length_app_stop.
Qed.

Lemma runs_below_mono (n m : nat) (c : char) (s : jsstring) :
  n <= m -> runs_below n c s -> runs_below m c s.
Proof.
  intros Hnm. induction s as [|x s IH]; [easy|].
  cbn [runs_below]. intros [H1 H2]. split; [lia|now apply IH].
Qed.

Lemma trimmed_first (p : jsstring) :
  p <> [] -> trimmed p -> exists y q, p = y :: q /\ is_space y = false.
Proof.
  intros Hne [H _]. destruct p as [|y q]; [contradiction|].
  exists y, q. split; [reflexivity|]. now apply (drop_space_head (y :: q) q).
Qed.

Lemma trimmed_last (p : jsstring) :
  p <> [] -> trimmed p -> exists w z, p = w ++ [z] /\ is_space z = false.
Proof.
  intros Hne [_ H]. destruct (rev p) as [|z w] eqn:E.
  - apply (f_equal (@rev _)) in E. rewrite rev_involutive in E.
    contradiction.
  - exists (rev w), z. split.
    + apply (f_equal (@rev _)) in E. now rewrite rev_involutive in E.
    + now apply (drop_space_head (z :: w) w).
Qed.

Lemma trimmed_ends (y z : char) (q w : jsstring) (s : jsstring) :
  s = y :: q -> s = w ++ [z] ->
  is_space y = false -> is_space z = false -> trimmed s.
Proof.
  intros E1 E2 Hy Hz. split.
  - rewrite E1. now apply drop_space_id.
  - rewrite E2, rev_app_distr. cbn [rev app]. now apply drop_space_id.
Qed.

Lemma split_go_no_match (s : jsstring) (b : bool) :
  runs_below 2 LF s -> split_go re_nl2 O b s = [s].
Proof.
  revert b. induction s as [|x s IH]; intros b; [reflexivity|].
  intros [H1 H2]. rewrite split_go_cons, match_len_nl2.
  destruct (Nat.leb_spec 2 (run_length LF (x :: s))); [lia|].
  now rewrite IH.
Qed.

Lemma split_go_nl2_sep (w : jsstring) (z : char) (T : jsstring) :
  (z =? LF)%N = false -> run_length LF T = 0 ->
  runs_below 2 LF (w ++ [z]) ->
  forall b,
    split_go re_nl2 O b ((w ++ [z]) ++ LF :: LF :: T)
    = (w ++ [z]) :: split_go re_nl2 O true T.
Proof.
  intros Hz HT. induction w as [|x w IH]; intros Hr b.
  - cbn [app]. rewrite split_go_cons, match_len_nl2.
    cbn [run_length]. rewrite Hz. cbn [Nat.leb].
    rewrite split_go_cons, match_len_nl2.
    cbn [run_length]. rewrite !N.eqb_refl, HT. reflexivity.
  - destruct Hr as [H1 H2]. cbn [app].
    rewrite split_go_cons, match_len_nl2.
    assert (E : run_length LF (x :: (w ++ [z]) ++ LF :: LF :: T)
                = run_length LF (x :: w)).
    { rewrite <- app_assoc.
      change (x :: w ++ [z] ++ LF :: LF :: T)
        with ((x :: w) ++ z :: LF :: LF :: T).
      now apply run_length_app_stop. }
    rewrite E.
    pose proof (run_length_app_le LF (x :: w) [z]) as Hle.
    cbn [app] in Hle.
    destruct (Nat.leb_spec 2 (run_length LF (x :: w))); [lia|].
    now rewrite IH.
Qed.

(** The joined text of clean paragraphs. *)
Lemma intercalate_clean (ps : list jsstring) :
  Forall clean_par ps -> ps <> [] ->
  let t := intercalate [LF; LF] ps in
  (exists y q, t = y :: q /\ is_space y = false)
  /\ (exists w z, t = w ++ [z] /\ is_space z = false)
  /\ lacks CR t /\ lacks TAB t
  /\ runs_below 2 SP t /\ runs_below 3 LF t
  /\ forall b, split_go re_nl2 O b t = ps.
Proof.
  induction 1 as [|p ps Hp Hps IH]; [contradiction|]. intros _.
  destruct Hp as (Hne & Htr & C1 & C2 & C3 & C4).
  destruct (trimmed_first p Hne Htr) as (y & q & Ey & Hy).
  destruct (trimmed_last p Hne Htr) as (w & z & Ez & Hz).
  destruct ps as [|p2 ps].
  - cbn [intercalate]. repeat split; try assumption.
    + now exists y, q.
    + now exists w, z.
    + apply (runs_below_mono 2 3); [lia|assumption].
    + intros b. now apply split_go_no_match.
  - destruct IH as ((y2 & q2 & Ey2 & Hy2) & (w2 & z2 & Ez2 & Hz2)
                    & D1 & D2 & D3 & D4 & D5); [discriminate|].
    change (intercalate [LF; LF] (p :: p2 :: ps))
      with (p ++ LF :: LF :: intercalate [LF; LF] (p2 :: ps)).
    set (T := intercalate [LF; LF] (p2 :: ps)) in *.
    assert (HT : run_length LF T = 0).
    { rewrite Ey2. cbn [run_length].
      now rewrite (not_space_not LF y2). }
    repeat split.
    + exists y, (q ++ LF :: LF :: T). split; [now rewrite Ey|exact Hy].
    + exists (p ++ LF :: LF :: w2), z2. split; [|exact Hz2].
      rewrite Ez2 at 1. rewrite <- app_assoc. reflexivity.
    + apply lacks_app. split; [exact C1|]. now repeat constructor.
    + apply lacks_app. split; [exact C2|]. now repeat constructor.
    + apply runs_below_sep; [lia|reflexivity|exact C3|].
      apply (runs_below_sep 2 SP LF []); [lia|reflexivity|exact I|exact D3].
    + rewrite Ez, <- app_assoc. cbn [app].
      apply runs_below_sep; [lia|now apply (not_space_not LF)| |].
      * apply (runs_below_mono 2 3); [lia|].
        rewrite Ez in C4. now apply runs_below_app_l in C4.
      * cbn [runs_below run_length]. rewrite !N.eqb_refl, HT.
        repeat split; try lia. exact D4.
    + intros b. rewrite Ez.
      rewrite split_go_nl2_sep;
        [now rewrite D5| now apply (not_space_not LF) | exact HT
        | now rewrite <- Ez].
Qed.

Lemma re_cr_head : re_cr = Chr (only CR) :: [].
Proof. reflexivity. Qed.

Lemma re_tab_head : re_tab = Chr (only TAB) :: [].
Proof. reflexivity. Qed.

(** The whitespace and splitting stages, applied to the joined text of clean
    paragraphs, give these paragraphs back. *)
Lemma split_join_clean (ps : list jsstring) :
  Forall clean_par ps ->
  split_paragraphs (normalize_ws (join [LF; LF] ps)) = ps.
Proof.
  intros Hps. rewrite join_intercalate.
  destruct ps as [|p ps]; [reflexivity|].
  destruct (intercalate_clean (p :: ps) Hps) as
    ((y & q & Ey & Hy) & (w & z & Ez & Hz) & D1 & D2 & D3 & D4 & D5);
    [discriminate|].
  set (t := intercalate [LF; LF] (p :: ps)) in *.
  assert (Hws : normalize_ws t = t).
  { unfold normalize_ws.
    rewrite re_cr_head, (replace_reject_all (only CR)) by exact D1.
    rewrite re_tab_head, (replace_reject_all (only TAB)) by exact D2.
    unfold re_spaces, re_nl3.
    rewrite (replace_runs_below 2 SP) by (try lia; exact D3).
    rewrite (replace_runs_below 3 LF) by (try lia; exact D4).
    apply trimmed_trim_id. now apply (trimmed_ends y z q w). }
  rewrite Hws. unfold split_paragraphs.
  assert (Hsp : split re_nl2 t = split_go re_nl2 O true t)
    by (clearbody t; now rewrite Ey).
  rewrite Hsp, D5.
  assert (Hmap : forall l, Forall clean_par l ->
            filter truthy (map trim l) = l).
  { induction 1 as [|a l (Ha & Hta & _) _ IHl]; [reflexivity|].
    cbn [map filter]. rewrite IHl, (trimmed_trim_id a Hta).
    now destruct a. }
  now apply Hmap.
Qed.

Lemma lacks_markup_free (t : jsstring) :
  lacks AMP t -> lacks LT t -> lacks HASH t -> markup_free t.
Proof.
  intros Ha Hl Hh. unfold markup_free.
  assert (Ha' : Forall (fun c => ci AMP c = false) t)
    by (apply lacks_ci; [unfold AMP; lia|exact Ha]).
  assert (Hl' : Forall (fun c => ci LT c = false) t)
    by (apply lacks_ci; [unfold LT; lia|exact Hl]).
  unfold before_strip, decode_entities, remove_scripts, block_boundaries,
    remove_openers, strip_tags, remove_noise.
  change re_nbsp with (Chr (ci AMP) :: lit_ci "nbsp;").
  change re_amp with (Chr (ci AMP) :: lit_ci "amp;").
  change re_39 with (Chr (ci AMP) :: lit_ci "#39;").
  change re_quot with (Chr (ci AMP) :: lit_ci "quot;").
  change re_lt with (Chr (ci AMP) :: lit_ci "lt;").
  change re_gt with (Chr (ci AMP) :: lit_ci "gt;").
  rewrite !(replace_reject_all (ci AMP) _ _ t) by exact Ha'.
  rewrite re_script_shape, re_style_shape, re_br_head.
  change re_p_close with (Chr (ci LT) :: lit_ci "/p>").
  change re_div_close with (Chr (ci LT) :: lit_ci "/div>").
  change re_h_close
    with (Chr (ci LT) :: lit_ci "/h" ++ [Chr is_1_6; Chr (ci GT)]).
  change re_p_open with (Chr (ci LT) :: lit_ci "p" ++ [Star not_gt; Chr (ci GT)]).
  change re_div_open
    with (Chr (ci LT) :: lit_ci "div" ++ [Star not_gt; Chr (ci GT)]).
  change re_h_open
    with (Chr (ci LT) :: lit_ci "h" ++ [Chr is_1_6; Star not_gt; Chr (ci GT)]).
  cbn [map app].
  rewrite !(replace_reject_all (ci LT) _ _ t) by exact Hl'.
  change re_tag with (Chr (only LT) :: at_least 1 not_gt ++ [Chr (only GT)]).
  rewrite (replace_reject_all (only LT)) by exact Hl.
  change re_hash with (Chr (only HASH) :: at_least 2 is_digit).
  rewrite (replace_reject_all (only HASH)) by exact Hh.
  change re_amps with (Chr (only AMP) :: at_least 1 (only AMP)).
  now rewrite (replace_reject_all (only AMP)) by exact Ha.
Qed.

Lemma normalize_clean (raw : jsstring) : Forall clean_par (normalize raw).
Proof.
  unfold normalize. destruct (truthy raw); [|constructor].
  unfold clean, from_strip. apply paragraphs_clean.
Qed.

(** C4, as the code has it: normalizing the joined result again gives the
    same paragraphs whenever the joined text has nothing left for the
    entity, tag and noise stages to rewrite. *)
Theorem renormalize_markup_free (raw : jsstring) :
  markup_free (join_raw raw) ->
  normalize (join_raw raw) = normalize raw
  /\ htmlToParagraphs (VString (join_raw raw)) = htmlToParagraphs (VString raw).
Proof.
  intros Hfree.
  assert (E : normalize (join_raw raw) = normalize raw).
  { pose proof (normalize_clean raw) as Hc.
    unfold join_raw in *. set (ps := normalize raw) in *.
    unfold normalize at 1.
    destruct (truthy (join [LF; LF] ps)) eqn:Et.
    - unfold clean, from_strip. unfold markup_free in Hfree.
      rewrite Hfree. now apply split_join_clean.
    - destruct ps as [|p ps]; [reflexivity|]. exfalso.
      apply Forall_cons_iff in Hc as [(Hne & _) _].
      rewrite join_intercalate in Et.
      destruct p as [|c p]; [contradiction|].
      destruct ps; discriminate Et. }
  split; [exact E|].
  now rewrite !htmlToParagraphs_string, <- !normalize_is_clean, E.
Qed.

Lemma renormalize_markup_free_witness :
  normalize (join_raw (str "<p>A &amp; B</p><p>C</p>"))
  = normalize (str "<p>A &amp; B</p><p>C</p>")
  /\ htmlToParagraphs (VString (join_raw (str "<p>A &amp; B</p><p>C</p>")))
     = htmlToParagraphs (VString (str "<p>A &amp; B</p><p>C</p>")).
Proof.
  apply (renormalize_markup_free (str "<p>A &amp; B</p><p>C</p>")).
  vm_compute. reflexivity.
Defined.

(** C4, as the claim has it, fails: an entity whose ampersand was itself
    written as an entity is decoded once by each call. *)
Lemma renormalize_decodes_again :
  normalize (str "&amp;nbsp;") = [str "&nbsp;"]
  /\ join_raw (str "&amp;nbsp;") = str "&nbsp;"
  /\ normalize (join_raw (str "&amp;nbsp;")) = []
  /\ normalize (join_raw (str "&amp;nbsp;")) <> normalize (str "&amp;nbsp;").
Proof. repeat split; try (vm_compute; reflexivity). vm_compute. discriminate. Qed.

(** * Further properties of the cleaner *)

(** ** The shape of what is returned *)

Lemma runs_below3_nl3 (s : jsstring) :
  runs_below 3 LF (replace re_nl3 [LF; LF] s).
Proof. apply (replace_at_least_runs 3 2 LF); lia. Qed.

Lemma normalize_ws_shape (u : jsstring) :
  trimmed (normalize_ws u)
  /\ lacks CR (normalize_ws u) /\ lacks TAB (normalize_ws u)
  /\ runs_below 2 SP (normalize_ws u) /\ runs_below 3 LF (normalize_ws u).
Proof.
  destruct (normalize_ws_factor u) as (s4 & F & C1 & C2 & C3).
  split; [apply trim_trimmed|].
  split; [exact (factor_Forall _ _ _ F C1)|].
  split; [exact (factor_Forall _ _ _ F C2)|].
  split; [exact (factor_runs_below _ _ _ _ F C3)|].
  unfold normalize_ws.
  eapply factor_runs_below; [apply trim_factor|apply runs_below3_nl3].
Qed.

Lemma normalize_ws_fixed (t : jsstring) :
  trimmed t -> lacks CR t -> lacks TAB t ->
  runs_below 2 SP t -> runs_below 3 LF t ->
  normalize_ws t = t.
Proof.
  intros Ht D1 D2 D3 D4. unfold normalize_ws.
  rewrite re_cr_head, (replace_reject_all (only CR)) by exact D1.
  rewrite re_tab_head, (replace_reject_all (only TAB)) by exact D2.
  unfold re_spaces, re_nl3.
  rewrite (replace_runs_below 2 SP) by (try lia; exact D3).
  rewrite (replace_runs_below 3 LF) by (try lia; exact D4).
  now apply trimmed_trim_id.
Qed.

(** X1: the whitespace stage (lines 84-91) is idempotent: applied to its own
    result it changes nothing. *)
Theorem normalize_ws_idempotent (u : jsstring) :
  normalize_ws (normalize_ws u) = normalize_ws u.
Proof.
  destruct (normalize_ws_shape u) as (H0 & H1 & H2 & H3 & H4).
  now apply normalize_ws_fixed.
Qed.

(** X2: every paragraph returned by [htmlToParagraphs] begins and ends with a
    character that is no white space, has no carriage return and no tab,
    never two spaces in a row and never two newlines in a row. *)
Theorem paragraph_shape (input : value) (paras : list jsstring)
  (p : jsstring) :
  htmlToParagraphs input = Normal paras ->
  In p paras ->
  (exists y q, p = y :: q /\ is_space y = false)
  /\ (exists w z, p = w ++ [z] /\ is_space z = false)
  /\ lacks CR p /\ lacks TAB p
  /\ runs_below 2 SP p /\ runs_below 2 LF p.
Proof.
  intros H Hin.
  assert (Hc : clean_par p).
  { destruct input as [| |[|]|raw]; try discriminate H;
      try (injection H as <-; now destruct Hin).
    rewrite htmlToParagraphs_string, <- normalize_is_clean in H.
    injection H as <-.
    pose proof (normalize_clean raw) as F. rewrite Forall_forall in F.
    now apply F. }
  destruct Hc as (Hne & Htr & C1 & C2 & C3 & C4).
  split; [now apply trimmed_first|].
  split; [now apply trimmed_last|]. now repeat split.
Qed.

Lemma paragraph_shape_witness :
  (exists y q, str "A b" = y :: q /\ is_space y = false)
  /\ (exists w z, str "A b" = w ++ [z] /\ is_space z = false)
  /\ lacks CR (str "A b") /\ lacks TAB (str "A b")
  /\ runs_below 2 SP (str "A b") /\ runs_below 2 LF (str "A b").
Proof.
  apply (paragraph_shape (VString (str "<p> A   b </p>")) [str "A b"]).
  - vm_compute. reflexivity.
  - left. reflexivity.
Defined.

(** X3: the text returned by [joinParagraphs] is empty, or it begins and
    ends with a character that is no white space, has no carriage return and
    no tab, never two spaces in a row and never more than two newlines in a
    row. *)
Theorem joined_shape (raw : jsstring) :
  exists t,
    joinParagraphs (VString raw) = Normal t
    /\ (t = []
        \/ (exists y q, t = y :: q /\ is_space y = false)
           /\ (exists w z, t = w ++ [z] /\ is_space z = false)
           /\ lacks CR t /\ lacks TAB t
           /\ runs_below 2 SP t /\ runs_below 3 LF t).
Proof.
  exists (join_raw raw). split.
  - unfold joinParagraphs, join_raw. cbn [default_empty].
    now rewrite htmlToParagraphs_string, normalize_is_clean.
  - unfold join_raw. rewrite join_intercalate.
    pose proof (normalize_clean raw) as Hc.
    destruct (normalize raw) as [|p ps]; [now left|]. right.
    destruct (intercalate_clean (p :: ps) Hc) as
      (E1 & E2 & D1 & D2 & D3 & D4 & _); [discriminate|].
    now repeat split.
Qed.

(** X4: splitting the text returned by [joinParagraphs] at the runs of two
    or more newlines (the split of line 94) gives back the paragraphs of
    [htmlToParagraphs], except that the empty text gives one empty piece. *)
Theorem split_joined (raw : jsstring) :
  exists paras t,
    htmlToParagraphs (VString raw) = Normal paras
    /\ joinParagraphs (VString raw) = Normal t
    /\ split re_nl2 t = match paras with [] => [[]] | _ => paras end.
Proof.
  exists (normalize raw), (join_raw raw).
  split; [now rewrite htmlToParagraphs_string, normalize_is_clean|].
  split.
  - unfold joinParagraphs, join_raw. cbn [default_empty].
    now rewrite htmlToParagraphs_string, normalize_is_clean.
  - unfold join_raw. rewrite join_intercalate.
    pose proof (normalize_clean raw) as Hc.
    destruct (normalize raw) as [|p ps]; [reflexivity|].
    destruct (intercalate_clean (p :: ps) Hc) as
      ((y & q & Ey & _) & _ & _ & _ & _ & _ & D5); [discriminate|].
    set (t := intercalate [LF; LF] (p :: ps)) in *.
    assert (Hsp : split re_nl2 t = split_go re_nl2 O true t)
      by (clearbody t; now rewrite Ey).
    now rewrite Hsp, D5.
Qed.

(** ** Tags *)

Lemma lacks_dec (c : char) (s : jsstring) : {lacks c s} + {~ lacks c s}.
Proof.
  apply Forall_dec. intros x. destruct (x =? c)%N; [right|left]; congruence.
Qed.

Lemma star_not_gt_some (s : jsstring) :
  ~ lacks GT s ->
  exists n, star_greedy not_gt (match_len [Chr (only GT)]) s = Some n.
Proof.
  induction s as [|d t IH]; intros H.
  - exfalso. apply H. constructor.
  - cbn [star_greedy]. unfold not_gt at 1.
    destruct (d =? GT)%N eqn:Ed; cbn [negb].
    + cbn [match_len]. unfold only. rewrite Ed. now eexists.
    + destruct IH as (n & ->); [|now eexists].
      intros Hl. apply H. now constructor.
Qed.

Lemma match_len_tag_none (s' : jsstring) :
  match_len re_tag (LT :: s') = None ->
  (exists s'', s' = GT :: s'') \/ lacks GT s'.
Proof.
  intros M. destruct s' as [|c s'']; [right; constructor|].
  destruct (c =? GT)%N eqn:Ec.
  - left. apply N.eqb_eq in Ec. subst c. now eexists.
  - right. destruct (lacks_dec GT s'') as [Hl|Hn]; [now constructor|].
    exfalso. destruct (star_not_gt_some s'' Hn) as (n & E).
    assert (M' : match_len re_tag (LT :: c :: s'')
                 = option_map S (option_map S
                     (star_greedy not_gt (match_len [Chr (only GT)]) s''))).
    { unfold re_tag, at_least. cbn [repeat app].
      rewrite match_len_Chr by reflexivity.
      rewrite match_len_Chr by (unfold not_gt; now rewrite Ec).
      reflexivity. }
    rewrite M', E in M. discriminate.
Qed.

Lemma match_len_tag_tagless (c : char) (s' : jsstring) :
  ((c =? LT)%N = true -> (exists s'', s' = GT :: s'') \/ lacks GT s') ->
  match_len re_tag (c :: s') = None.
Proof.
  intros H. destruct (c =? LT)%N eqn:Ec.
  - apply N.eqb_eq in Ec. subst c.
    destruct (H eq_refl) as [(s'' & ->)|Hl]; [reflexivity|].
    rewrite re_tag_closer. apply match_len_no_closer.
    constructor; [reflexivity|exact Hl].
  - unfold re_tag. cbn [app match_len]. unfold only at 1. now rewrite Ec.
Qed.

Lemma tagless_no_start (s : jsstring) : tagless s -> no_start re_tag s [].
Proof.
  induction s as [|c s IH]; [easy|]. intros [H1 H2].
  cbn [no_start]. split; [|now apply IH].
  rewrite app_nil_r. now apply match_len_tag_tagless.
Qed.

Lemma tagless_fixed (s : jsstring) : tagless s -> strip_tags s = s.
Proof.
  intros H. unfold strip_tags.
  rewrite <- (app_nil_r s) at 1.
  rewrite replace_no_start by now apply tagless_no_start.
  now rewrite app_nil_r.
Qed.

Lemma tagless_skipn (k : nat) (s : jsstring) :
  tagless s -> tagless (skipn k s).
Proof.
  revert s. induction k as [|k IH]; intros s H; [exact H|].
  destruct s as [|x s]; [exact I|]. cbn [skipn]. apply IH. now destruct H.
Qed.

Lemma tagless_app_r (x y : jsstring) : tagless (x ++ y) -> tagless y.
Proof.
  induction x as [|c x IH]; [easy|]. cbn [app tagless]. intros [_ H].
  now apply IH.
Qed.

Lemma tagless_app_l (x y : jsstring) : tagless (x ++ y) -> tagless x.
Proof.
  induction x as [|c x IH]; [easy|]. cbn [app tagless].
  intros [H1 H2]. split; [|now apply IH].
  intros Ec. destruct (H1 Ec) as [(s'' & E)|Hl].
  - destruct x as [|d x]; [right; constructor|].
    left. cbn [app] in E. injection E as -> _. now eexists.
  - right. now apply lacks_app in Hl.
Qed.

Lemma tagless_factor (seg s : jsstring) :
  factor seg s -> tagless s -> tagless seg.
Proof.
  intros (p & q & ->) H.
  apply tagless_app_r in H. now apply tagless_app_l in H.
Qed.

Lemma tagless_lacks_app (x y : jsstring) :
  lacks LT x -> tagless y -> tagless (x ++ y).
Proof.
  intros Hx Hy. induction Hx as [|c x Hc _ IH]; [exact Hy|].
  cbn [app tagless]. split; [|exact IH]. intros E. congruence.
Qed.

Lemma strip_tags_lacks_gt (s : jsstring) :
  lacks GT s -> lacks GT (strip_tags s).
Proof. intros H. apply replace_Forall; [constructor|exact H]. Qed.

Lemma strip_tags_tagless (s : jsstring) : tagless (strip_tags s).
Proof.
  length_induction s IH. destruct s as [|x s]; [exact I|].
  unfold strip_tags in *. rewrite replace_cons.
  destruct (match_len re_tag (x :: s)) as [[|k]|] eqn:M.
  - exfalso. unfold re_tag in M. cbn [app match_len] in M.
    destruct (only LT x); [|discriminate].
    destruct (match_len (at_least 1 not_gt ++ [Chr (only GT)]) s);
      discriminate.
  - cbn [app]. apply match_len_le in M. cbn in M.
    apply IH. rewrite length_skipn. cbn. lia.
  - cbn [tagless]. split; [|apply IH; cbn; lia].
    intros Ex. apply N.eqb_eq in Ex. subst x.
    destruct (match_len_tag_none s M) as [(s'' & ->)|Hl].
    + left. rewrite replace_cons.
      assert (E : match_len re_tag (GT :: s'') = None) by reflexivity.
      rewrite E. now eexists.
    + right. now apply strip_tags_lacks_gt.
Qed.

(** X5: the generic tag stripping (line 77) leaves no tag behind, so that
    stripping again changes nothing. *)
Theorem strip_tags_idempotent (s : jsstring) :
  strip_tags (strip_tags s) = strip_tags s
  /\ forall i, match_len re_tag (skipn i (strip_tags s)) = None.
Proof.
  pose proof (strip_tags_tagless s) as H. split.
  - now apply tagless_fixed.
  - intros i. apply (tagless_skipn i) in H.
    destruct (skipn i (strip_tags s)) as [|c t]; [reflexivity|].
    destruct H as [H _]. now apply match_len_tag_tagless.
Qed.

(** A replacement that reads and writes no angle bracket makes no tag. *)
Lemma replace_tagless (p : cclass) (r : regex) (rep : jsstring) :
  reads (Chr p :: r) LT = false -> reads (Chr p :: r) GT = false ->
  lacks LT rep -> lacks GT rep ->
  forall s, tagless s -> tagless (replace (Chr p :: r) rep s).
Proof.
  intros RL RG HL HG.
  assert (Hp : p GT = false).
  { cbn [reads existsb item_class] in RG. now apply orb_false_iff in RG. }
  assert (Hhead : forall s'', replace (Chr p :: r) rep (GT :: s'')
                              = GT :: replace (Chr p :: r) rep s'').
  { intros s''. rewrite replace_cons. cbn [match_len]. now rewrite Hp. }
  intros s. length_induction s IH. destruct s as [|x s]; [easy|].
  intros [H1 H2].
  assert (Hx : tagless (x :: replace (Chr p :: r) rep s)).
  { cbn [tagless]. split; [|apply IH; [cbn; lia|exact H2]].
    intros Ex. destruct (H1 Ex) as [(s'' & ->)|Hl].
    - left. rewrite Hhead. now eexists.
    - right. now apply replace_Forall. }
  rewrite replace_cons.
  destruct (match_len (Chr p :: r) (x :: s)) as [[|k]|] eqn:M.
  - now apply tagless_lacks_app.
  - apply tagless_lacks_app; [exact HL|].
    apply match_len_le in M. cbn in M.
    apply IH; [rewrite length_skipn; cbn; lia|].
    now apply tagless_skipn.
  - exact Hx.
Qed.

Lemma from_strip_tagless (s : jsstring) (p : jsstring) :
  In p (from_strip s) -> tagless p.
Proof.
  unfold from_strip, split_paragraphs. intros Hin.
  apply filter_In in Hin as [Hin _].
  apply in_map_iff in Hin as (seg & <- & Hseg).
  pose proof (split_nl2_segments
                (normalize_ws (remove_noise (strip_tags s)))) as F.
  rewrite Forall_forall in F. destruct (F seg Hseg) as [_ Fs].
  apply (tagless_factor _ seg); [apply trim_factor|].
  apply (tagless_factor _ _ Fs).
  unfold normalize_ws. apply (tagless_factor _ _ (trim_factor _)).
  unfold remove_noise.
  change re_hash with (Chr (only HASH) :: at_least 2 is_digit).
  change re_amps with (Chr (only AMP) :: at_least 1 (only AMP)).
  rewrite re_cr_head, re_tab_head.
  change re_spaces with (Chr (only SP) :: at_least 1 (only SP)).
  change re_nl3 with (Chr (only LF) :: at_least 2 (only LF)).
  repeat (apply replace_tagless;
          [reflexivity|reflexivity|now repeat constructor
          |now repeat constructor|]).
  apply strip_tags_tagless.
Qed.

(** X6: no paragraph returned by [htmlToParagraphs] contains a tag, that is
    a [<], one or more characters other than [>], and a [>]: the generic tag
    stripping would leave each paragraph as it is. *)
Theorem paragraphs_have_no_tag (input : value) (paras : list jsstring)
  (p : jsstring) :
  htmlToParagraphs input = Normal paras ->
  In p paras ->
  strip_tags p = p /\ forall i, match_len re_tag (skipn i p) = None.
Proof.
  intros H Hin.
  assert (Ht : tagless p).
  { destruct input as [| |[|]|raw]; try discriminate H;
      try (injection H as <-; now destruct Hin).
    rewrite htmlToParagraphs_string in H. injection H as <-.
    unfold clean in Hin.
    exact (from_strip_tagless (before_strip raw) p Hin). }
  split; [now apply tagless_fixed|].
  intros i. apply (tagless_skipn i) in Ht.
  destruct (skipn i p) as [|c t]; [reflexivity|].
  destruct Ht as [Ht _]. now apply match_len_tag_tagless.
Qed.

Lemma paragraphs_have_no_tag_witness :
  strip_tags (str "a > b <") = str "a > b <"
  /\ forall i, match_len re_tag (skipn i (str "a > b <")) = None.
Proof.
  apply (paragraphs_have_no_tag (VString (str "<i>a</i> &gt; b &lt;"))
           [str "a > b <"]).
  - vm_compute. reflexivity.
  - left. reflexivity.
Defined.

(** ** What is kept, in order *)

Section Kept.

Variable keep : char -> bool.

Lemma filter_none (l : jsstring) :
  Forall (fun c => keep c = false) l -> filter keep l = [].
Proof.
  induction 1 as [|c l Hc _ IH]; [reflexivity|].
  cbn [filter]. now rewrite Hc.
Qed.

Lemma replace_filter (re : regex) (rep : jsstring) :
  (forall c, reads re c = true -> keep c = false) ->
  filter keep rep = [] ->
  forall s, filter keep (replace re rep s) = filter keep s.
Proof.
  intros Hre Hrep s. length_induction s IH. destruct s as [|x s].
  - unfold replace. cbn [replace_go].
    now destruct (match_len re []).
  - rewrite replace_cons.
    destruct (match_len re (x :: s)) as [[|k]|] eqn:M.
    + rewrite filter_app, Hrep. cbn [app filter].
      now rewrite IH by (cbn; lia).
    + rewrite filter_app, Hrep. cbn [app].
      pose proof (match_len_reads _ _ _ M) as F.
      pose proof (match_len_le _ _ _ M) as Hle. cbn in Hle.
      rewrite IH by (rewrite length_skipn; cbn; lia).
      transitivity (filter keep (firstn (S k) (x :: s)
                                 ++ skipn (S k) (x :: s)));
        [|now rewrite firstn_skipn].
      rewrite filter_app, (filter_none (firstn (S k) (x :: s)));
        [reflexivity|].
      eapply Forall_impl; [|exact F]. intros c Hc. now apply Hre.
    + cbn [filter]. now rewrite IH by (cbn; lia).
Qed.

Lemma concat_push_char (c : char) (l : list jsstring) :
  List.concat (push_char c l) = c :: List.concat l.
Proof. destruct l; reflexivity. Qed.

Lemma split_go_filter (re : regex) :
  (forall c, reads re c = true -> keep c = false) ->
  forall s b, filter keep (List.concat (split_go re O b s)) = filter keep s.
Proof.
  intros Hre s. length_induction s IH. intros b.
  destruct s as [|x s]; [reflexivity|].
  rewrite split_go_cons.
  assert (Hpush :
            filter keep (List.concat (push_char x (split_go re O false s)))
            = filter keep (x :: s)).
  { rewrite concat_push_char. cbn [filter].
    now rewrite IH by (cbn; lia). }
  destruct (match_len re (x :: s)) as [[|k]|] eqn:M.
  - now destruct b.
  - cbn [List.concat app].
    pose proof (match_len_reads _ _ _ M) as F.
    pose proof (match_len_le _ _ _ M) as Hle. cbn in Hle.
    rewrite IH by (rewrite length_skipn; cbn; lia).
    transitivity (filter keep (firstn (S k) (x :: s)
                               ++ skipn (S k) (x :: s)));
      [|now rewrite firstn_skipn].
    rewrite filter_app, (filter_none (firstn (S k) (x :: s)));
        [reflexivity|].
    eapply Forall_impl; [|exact F]. intros c Hc. now apply Hre.
  - exact Hpush.
Qed.

Hypothesis keep_not_space : forall c, keep c = true -> is_space c = false.

Lemma space_not_kept (l : jsstring) :
  Forall (fun c => is_space c = true) l -> filter keep l = [].
Proof.
  intros H. apply filter_none. eapply Forall_impl; [|exact H].
  intros c Hc. destruct (keep c) eqn:E; [|reflexivity].
  apply keep_not_space in E. congruence.
Qed.

Lemma trim_filter (s : jsstring) : filter keep (trim s) = filter keep s.
Proof.
  unfold trim.
  destruct (drop_space_split s) as (pre & E1 & F1).
  destruct (drop_space_split (rev (drop_space s))) as (pre2 & E2 & F2).
  set (t := drop_space (rev (drop_space s))) in *.
  assert (E : s = pre ++ rev t ++ rev pre2).
  { rewrite <- rev_app_distr, <- E2, rev_involutive. exact E1. }
  clearbody t. clear E1 E2.
  transitivity (filter keep (pre ++ rev t ++ rev pre2));
    [|now rewrite <- E].
  rewrite !filter_app.
  rewrite (space_not_kept pre F1), (space_not_kept (rev pre2)).
  - cbn [app]. now rewrite app_nil_r.
  - now apply Forall_rev.
Qed.

Lemma ws_reads_space (re : regex) (c : char) :
  In re [re_cr; re_tab; re_spaces; re_nl3; re_nl2] ->
  reads re c = true -> keep c = false.
Proof.
  intros Hin Hr.
  assert (Hs : is_space c = true).
  { cbn [In] in Hin.
    destruct Hin as [<-|[<-|[<-|[<-|[<-|[]]]]]];
      unfold reads in Hr; cbn in Hr; unfold only in Hr;
      repeat (apply orb_true_iff in Hr as [Hr|Hr]);
      try discriminate Hr; apply N.eqb_eq in Hr; now subst c. }
  destruct (keep c) eqn:E; [|reflexivity].
  apply keep_not_space in E. congruence.
Qed.

Lemma paragraphs_filter (l : list jsstring) :
  filter keep (List.concat (filter truthy (map trim l)))
  = filter keep (List.concat l).
Proof.
  induction l as [|a l IH]; [reflexivity|].
  cbn [map filter List.concat]. rewrite filter_app, <- IH, <- (trim_filter a).
  destruct (trim a) as [|c t] eqn:E; cbn [truthy]; [reflexivity|].
  cbn [List.concat]. now rewrite filter_app.
Qed.

Lemma ws_split_filter (s : jsstring) :
  filter keep (List.concat (split_paragraphs (normalize_ws s)))
  = filter keep s.
Proof.
  unfold split_paragraphs. rewrite paragraphs_filter.
  assert (Hsplit : forall t, filter keep (List.concat (split re_nl2 t))
                             = filter keep t).
  { intros [|c t]; [reflexivity|]. unfold split.
    apply split_go_filter. intros x. apply ws_reads_space.
    cbn. tauto. }
  rewrite Hsplit. unfold normalize_ws. rewrite trim_filter.
  rewrite !replace_filter; try reflexivity;
    try (intros x; apply ws_reads_space; cbn; tauto);
    try (apply space_not_kept; now repeat constructor).
Qed.

End Kept.

(** X7: for a string that has no ampersand, no [<] and no hash,
    [htmlToParagraphs] changes nothing but white space: the characters of
    the paragraphs that are no white space are those of the input, in the
    same order. *)
Theorem plain_text_only_loses_space (raw : jsstring) :
  lacks AMP raw -> lacks LT raw -> lacks HASH raw ->
  exists paras,
    htmlToParagraphs (VString raw) = Normal paras
    /\ nonspace (List.concat paras) = nonspace raw.
Proof.
  intros Ha Hl Hh. exists (clean raw).
  split; [apply htmlToParagraphs_string|].
  pose proof (lacks_markup_free raw Ha Hl Hh) as Hfree.
  unfold clean, from_strip. unfold markup_free in Hfree. rewrite Hfree.
  apply ws_split_filter. intros c Hc. now apply negb_true_iff in Hc.
Qed.

Lemma plain_text_only_loses_space_witness :
  exists paras,
    htmlToParagraphs (VString (str "  one  two" ++ [LF; LF; LF] ++ str "3 "))
    = Normal paras
    /\ nonspace (List.concat paras)
       = nonspace (str "  one  two" ++ [LF; LF; LF] ++ str "3 ").
Proof.
  apply plain_text_only_loses_space; vm_compute;
    repeat constructor.
Defined.

(** X8: whatever the input, the stages that follow the tag stripping (lines
    80-94) delete only white space, digits, hashes and ampersands: every
    other character left by the tag stripping is returned, in the same
    order. *)
Theorem after_strip_keeps_plain (input : value) (paras : list jsstring) :
  htmlToParagraphs input = Normal paras ->
  match input with
  | VString raw =>
      filter plain (List.concat paras)
      = filter plain (strip_tags (before_strip raw))
  | _ => paras = []
  end.
Proof.
  intros H. destruct input as [| |[|]|raw]; try discriminate H;
    try (now injection H as <-).
  rewrite htmlToParagraphs_string in H. injection H as <-.
  unfold clean, from_strip.
  rewrite (ws_split_filter plain plain_not_space).
  unfold remove_noise.
  rewrite !replace_filter; try reflexivity;
    intros c Hc; destruct (plain c) eqn:E; try reflexivity;
    destruct (plain_unread c E) as (H1 & H2 & _); congruence.
Qed.

Lemma after_strip_keeps_plain_witness :
  filter plain (List.concat [str "Text more"])
  = filter plain (strip_tags (before_strip (str "<b>Text</b> #12345 more"))).
Proof.
  apply (after_strip_keeps_plain
           (VString (str "<b>Text</b> #12345 more")) [str "Text more"]).
  vm_compute. reflexivity.
Defined.

(** ** Entities *)

Lemma ci_AMP_eq (x : char) : ci AMP x = true -> x = AMP.
Proof.
  rewrite ci_other by (unfold AMP; lia). apply N.eqb_eq.
Qed.

Lemma lacks_AMP_reject (a : jsstring) :
  lacks AMP a -> Forall (fun c => ci AMP c = false) a.
Proof. apply lacks_ci. unfold AMP. lia. Qed.

(** A pass whose pattern differs from the entity at its second character
    goes over the entity. *)
Lemma pass_skip (re : regex) (x : char) (L rep a rest X : jsstring)
  (d : char) :
  re = map (fun c => Chr (ci c)) (AMP :: x :: L) ->
  ci x d = false -> lacks AMP (d :: rest) -> lacks AMP a ->
  replace re rep (a ++ (AMP :: d :: rest) ++ X)
  = a ++ (AMP :: d :: rest) ++ replace re rep X.
Proof.
  intros -> Hd Hr Ha. cbn [map].
  rewrite app_assoc, replace_no_start; [now rewrite <- app_assoc|].
  apply no_start_app.
  - apply no_start_reject. now apply lacks_AMP_reject.
  - apply (no_start_app _ [AMP] (d :: rest)).
    + split; [|exact I]. cbn [app].
      rewrite match_len_Chr by reflexivity.
      cbn [match_len]. now rewrite Hd.
    + apply no_start_reject. now apply lacks_AMP_reject.
Qed.

(** The pass of the entity itself replaces it. *)
Lemma pass_hit (re : regex) (L a ent X : jsstring) (c : char) :
  re = map (fun c => Chr (ci c)) (AMP :: L) ->
  ci_eq (AMP :: L) ent -> lacks AMP a ->
  replace re [c] (a ++ ent ++ X) = a ++ c :: replace re [c] X.
Proof.
  intros -> He Ha.
  pose proof (match_len_lit (AMP :: L) ent [] X He) as M.
  rewrite app_nil_r in M. cbn [match_len option_map] in M.
  rewrite Nat.add_0_r in M. cbn [map] in *.
  rewrite replace_reject by now apply lacks_AMP_reject.
  f_equal. rewrite replace_match; [reflexivity| |exact M].
  inversion He. discriminate.
Qed.

(** A later pass goes over the character that was written. *)
Lemma pass_after (re : regex) (L rep a X : jsstring) (c : char) :
  re = map (fun c => Chr (ci c)) (AMP :: L) ->
  (c =? AMP)%N = false -> lacks AMP a ->
  replace re rep (a ++ c :: X) = a ++ c :: replace re rep X.
Proof.
  intros -> Hc Ha. cbn [map].
  change (a ++ c :: X) with (a ++ [c] ++ X).
  rewrite app_assoc, replace_reject; [now rewrite <- app_assoc|].
  apply lacks_AMP_reject. apply lacks_app. split; [exact Ha|].
  now repeat constructor.
Qed.

(** X9: each of the entities for the non-breaking space, the apostrophe, the
    quote and the two angle brackets, written with letters in either case,
    is decoded to its character wherever it stands after text that has no
    ampersand; what follows it is decoded independently. *)
Theorem entity_decoded (L : jsstring) (c : char) (a ent b : jsstring) :
  In (L, c) [(str "&nbsp;", SP); (str "&#39;", SQUOTE);
             (str "&quot;", DQUOTE); (str "&lt;", LT); (str "&gt;", GT)] ->
  ci_eq L ent -> lacks AMP a ->
  decode_entities (a ++ ent ++ b) = a ++ c :: decode_entities b.
Proof.
  intros Hin He Ha. unfold decode_entities.
  assert (Hshape : exists d rest,
             ent = AMP :: d :: rest /\ lacks AMP (d :: rest)
             /\ ci (nth 1 L 0%N) d = true).
  { cbn [In] in Hin.
    destruct Hin as [E|[E|[E|[E|[E|[]]]]]]; injection E as <- <-;
      inversion He as [|p0 c0 L0 t0 H0 He1]; subst;
      inversion He1 as [|p1 d L1 rest H1 He2]; subst;
      apply ci_AMP_eq in H0; subst c0;
      exists d, rest; (split; [reflexivity|]); (split; [|exact H1]);
      (eapply (ci_eq_lacks AMP); [unfold nonletter, AMP; lia|exact He1|]);
      now repeat constructor. }
  destruct Hshape as (d & rest & -> & Hl & Hd).
  assert (Hskip : forall x, canon (nth 1 L 0%N) <> canon x ->
                            ci x d = false).
  { intros x Hx. now apply (ci_differs (nth 1 L 0%N)). }
  cbn [In] in Hin.
  destruct Hin as [E|[E|[E|[E|[E|[]]]]]]; injection E as <- <-;
    cbn [nth str list_ascii_of_string map] in Hskip.
  - rewrite (pass_hit re_nbsp (str "nbsp;")) by (reflexivity || assumption).
    rewrite (pass_after re_amp (str "amp;")) by (reflexivity || assumption).
    rewrite (pass_after re_39 (str "#39;")) by (reflexivity || assumption).
    rewrite (pass_after re_quot (str "quot;")) by (reflexivity || assumption).
    rewrite (pass_after re_lt (str "lt;")) by (reflexivity || assumption).
    now rewrite (pass_after re_gt (str "gt;")) by (reflexivity || assumption).
  - rewrite (pass_skip re_nbsp 110%N (str "bsp;"));
      [|reflexivity|apply Hskip; vm_compute; discriminate|assumption..].
    rewrite (pass_skip re_amp 97%N (str "mp;"));
      [|reflexivity|apply Hskip; vm_compute; discriminate|assumption..].
    rewrite (pass_hit re_39 (str "#39;")) by (reflexivity || assumption).
    rewrite (pass_after re_quot (str "quot;")) by (reflexivity || assumption).
    rewrite (pass_after re_lt (str "lt;")) by (reflexivity || assumption).
    now rewrite (pass_after re_gt (str "gt;")) by (reflexivity || assumption).
  - rewrite (pass_skip re_nbsp 110%N (str "bsp;"));
      [|reflexivity|apply Hskip; vm_compute; discriminate|assumption..].
    rewrite (pass_skip re_amp 97%N (str "mp;"));
      [|reflexivity|apply Hskip; vm_compute; discriminate|assumption..].
    rewrite (pass_skip re_39 35%N (str "39;"));
      [|reflexivity|apply Hskip; vm_compute; discriminate|assumption..].
    rewrite (pass_hit re_quot (str "quot;")) by (reflexivity || assumption).
    rewrite (pass_after re_lt (str "lt;")) by (reflexivity || assumption).
    now rewrite (pass_after re_gt (str "gt;")) by (reflexivity || assumption).
  - rewrite (pass_skip re_nbsp 110%N (str "bsp;"));
      [|reflexivity|apply Hskip; vm_compute; discriminate|assumption..].
    rewrite (pass_skip re_amp 97%N (str "mp;"));
      [|reflexivity|apply Hskip; vm_compute; discriminate|assumption..].
    rewrite (pass_skip re_39 35%N (str "39;"));
      [|reflexivity|apply Hskip; vm_compute; discriminate|assumption..].
    rewrite (pass_skip re_quot 113%N (str "uot;"));
      [|reflexivity|apply Hskip; vm_compute; discriminate|assumption..].
    rewrite (pass_hit re_lt (str "lt;")) by (reflexivity || assumption).
    now rewrite (pass_after re_gt (str "gt;")) by (reflexivity || assumption).
  - rewrite (pass_skip re_nbsp 110%N (str "bsp;"));
      [|reflexivity|apply Hskip; vm_compute; discriminate|assumption..].
    rewrite (pass_skip re_amp 97%N (str "mp;"));
      [|reflexivity|apply Hskip; vm_compute; discriminate|assumption..].
    rewrite (pass_skip re_39 35%N (str "39;"));
      [|reflexivity|apply Hskip; vm_compute; discriminate|assumption..].
    rewrite (pass_skip re_quot 113%N (str "uot;"));
      [|reflexivity|apply Hskip; vm_compute; discriminate|assumption..].
    rewrite (pass_skip re_lt 108%N (str "t;"));
      [|reflexivity|apply Hskip; vm_compute; discriminate|assumption..].
    now rewrite (pass_hit re_gt (str "gt;")) by (reflexivity || assumption).
Qed.

Lemma entity_decoded_witness :
  decode_entities (str "a < b " ++ str "&GT;" ++ str " c &amp; d")
  = str "a < b " ++ GT :: decode_entities (str " c &amp; d").
Proof.
  apply (entity_decoded (str "&gt;")).
  - cbn [In]. tauto.
  - repeat constructor.
  - repeat constructor.
Defined.

(** ** Closing tags *)

Lemma lit_mismatch (P R : jsstring) (x : char) (r : regex)
  (t : jsstring) (d : char) (s : jsstring) :
  ci_eq P t -> ci x d = false ->
  match_len (map (fun c => Chr (ci c)) (P ++ x :: R) ++ r) (t ++ d :: s)
  = None.
Proof.
  intros Ht Hd. rewrite map_app, <- app_assoc, match_len_lit by exact Ht.
  cbn [map app match_len]. now rewrite Hd.
Qed.

Lemma close_pass_skip (re r : regex) (rep A cl' X : jsstring) :
  re = Chr (ci LT) :: r -> rejects r LT = true -> lacks LT cl' ->
  match_len re (LT :: cl' ++ X) = None ->
  replace re rep (A ++ (LT :: cl') ++ X)
  = replace re rep A ++ (LT :: cl') ++ replace re rep X.
Proof.
  intros -> Hr Hl M. cbn [app]. rewrite replace_barrier by exact Hr.
  f_equal. rewrite replace_cons, M. f_equal.
  apply replace_reject. now apply lacks_ci; [unfold LT; lia|].
Qed.

Lemma close_pass_hit (re r : regex) (rep A cl' X : jsstring) :
  re = Chr (ci LT) :: r -> rejects r LT = true ->
  match_len re ((LT :: cl') ++ X) = Some (List.length (LT :: cl')) ->
  replace re rep (A ++ (LT :: cl') ++ X)
  = replace re rep A ++ rep ++ replace re rep X.
Proof.
  intros -> Hr M. cbn [app]. rewrite replace_barrier by exact Hr.
  f_equal. change (LT :: cl' ++ X) with ((LT :: cl') ++ X).
  now rewrite replace_match.
Qed.

Lemma close_pass_after (re : regex) (p : cclass) (r : regex)
  (rep A B : jsstring) :
  re = Chr p :: r -> rejects r LF = true -> p LF = false ->
  replace re rep (A ++ LF :: LF :: B)
  = replace re rep A ++ LF :: LF :: replace re rep B.
Proof.
  intros -> Hr Hp. rewrite replace_split_at by assumption.
  f_equal. f_equal.
  exact (replace_split_at p r LF rep [] B Hr Hp).
Qed.

(** The parts of a closing tag. *)
Lemma close_tag_parts (cl : jsstring) :
  is_close_tag cl ->
  exists c2 rest,
    cl = LT :: SLASH :: c2 :: rest /\ lacks LT (SLASH :: c2 :: rest)
    /\ (ci 112%N c2 = true \/ ci 100%N c2 = true \/ ci 104%N c2 = true).
Proof.
  assert (Hopen : forall L t, ci_eq (LT :: SLASH :: L) t ->
            exists t', t = LT :: SLASH :: t' /\ ci_eq L t').
  { intros L t H. inversion H as [|p0 c0 L0 t0 H0 H1]. subst.
    inversion H1 as [|p1 c1 L1 t1 G0 G1]. subst.
    rewrite ci_LT in H0. apply N.eqb_eq in H0.
    rewrite ci_other in G0 by (unfold SLASH; lia). apply N.eqb_eq in G0.
    subst. now exists t1. }
  assert (Hlt : forall L t, ci_eq L t -> lacks LT L -> lacks LT t).
  { intros L t. apply ci_eq_lacks. unfold nonletter, LT. lia. }
  intros [H|[H|(t & d & -> & H & Hd)]].
  - destruct (Hopen (str "p>") cl H) as (t' & -> & Ht').
    inversion Ht' as [|p2 c2 L2 rest H2 H3]. subst.
    exists c2, rest. split; [reflexivity|]. split; [|now left].
    constructor; [reflexivity|]. apply (Hlt _ _ Ht'). now repeat constructor.
  - destruct (Hopen (str "div>") cl H) as (t' & -> & Ht').
    inversion Ht' as [|p2 c2 L2 rest H2 H3]. subst.
    exists c2, rest. split; [reflexivity|]. split; [|right; now left].
    constructor; [reflexivity|]. apply (Hlt _ _ Ht'). now repeat constructor.
  - destruct (Hopen (str "h") t H) as (t' & -> & Ht').
    inversion Ht' as [|p2 c2 L2 rest H2 H3]. subst.
    inversion H3. subst.
    exists c2, [d; GT]. split; [reflexivity|]. split; [|right; now right].
    assert (Hc : lacks LT [c2])
      by (apply (Hlt _ _ Ht'); now repeat constructor).
    apply Forall_cons_iff in Hc as [Hc _].
    constructor; [reflexivity|].
    constructor; [exact Hc|].
    constructor; [|now repeat constructor].
    unfold is_1_6 in Hd. apply andb_true_iff in Hd as [D1 D2].
    apply N.leb_le in D1, D2. apply N.eqb_neq. unfold LT. lia.
Qed.

(** X10: a closing paragraph, division or heading tag (levels 1 to 6,
    letters in either case) is turned into two newlines by the
    block-boundary stage wherever it stands; what precedes and what follows
    it are converted independently. *)
Theorem close_tag_breaks (a cl b : jsstring) :
  is_close_tag cl ->
  block_boundaries (a ++ cl ++ b)
  = block_boundaries a ++ LF :: LF :: block_boundaries b.
Proof.
  intros Hcl.
  destruct (close_tag_parts cl Hcl) as (c2 & rest & E & Hl & Hc2).
  unfold block_boundaries.
  (* the line-break pass goes over the tag *)
  assert (Hbr : forall A X,
            replace re_br [LF] (A ++ cl ++ X)
            = replace re_br [LF] A ++ cl ++ replace re_br [LF] X).
  { intros A X. rewrite E.
    apply (close_pass_skip re_br _ _ _ _ _ re_br_head);
      [reflexivity|exact Hl|].
    apply (lit_mismatch [LT] (str "r") 98%N _ [LT] SLASH).
    - repeat constructor.
    - reflexivity. }
  rewrite Hbr.
  set (A := replace re_br [LF] a). set (B := replace re_br [LF] b).
  assert (Rp : re_p_close = Chr (ci LT) :: lit_ci "/p>") by reflexivity.
  assert (Rd : re_div_close = Chr (ci LT) :: lit_ci "/div>") by reflexivity.
  assert (Rh : re_h_close
               = Chr (ci LT) :: lit_ci "/h" ++ [Chr is_1_6; Chr (ci GT)])
    by reflexivity.
  destruct Hcl as [H|[H|(t & d & Et & H & Hd)]].
  - (* </p> *)
    rewrite E in *.
    rewrite (close_pass_hit re_p_close _ _ _ _ _ Rp); [|reflexivity|].
    2:{ pose proof (match_len_lit (str "</p>") _ [] B H) as M.
        rewrite app_nil_r in M. cbn [match_len option_map] in M.
        rewrite Nat.add_0_r in M. exact M. }
    cbn [app].
    rewrite (close_pass_after re_div_close _ _ _ _ _ Rd) by reflexivity.
    now rewrite (close_pass_after re_h_close _ _ _ _ _ Rh) by reflexivity.
  - (* </div> *)
    assert (Hd : ci 100%N c2 = true).
    { rewrite E in H. inversion H as [|? ? ? ? _ H1]. subst.
      inversion H1 as [|? ? ? ? _ H2]. subst.
      now inversion H2. }
    rewrite E in *.
    rewrite (close_pass_skip re_p_close _ _ _ _ _ Rp);
      [|reflexivity|exact Hl|].
    2:{ apply (lit_mismatch [LT; SLASH] (str ">") 112%N [] [LT; SLASH] c2).
        - repeat constructor.
        - apply (ci_differs _ _ _ Hd). vm_compute. discriminate. }
    rewrite (close_pass_hit re_div_close _ _ _ _ _ Rd); [|reflexivity|].
    2:{ pose proof (match_len_lit (str "</div>") _ []
                      (replace re_p_close [LF; LF] B) H) as M.
        rewrite app_nil_r in M. cbn [match_len option_map] in M.
        rewrite Nat.add_0_r in M. exact M. }
    cbn [app].
    now rewrite (close_pass_after re_h_close _ _ _ _ _ Rh) by reflexivity.
  - (* </hN> *)
    assert (Hh : ci 104%N c2 = true /\ t = [LT; SLASH; c2]
                 /\ rest = [d; GT]).
    { rewrite Et in E. inversion H as [|? ? ? ? _ H1]. subst.
      inversion H1 as [|? ? ? ? _ H2]. subst.
      inversion H2 as [|? ? ? ? H3 H4]. subst. inversion H4. subst.
      cbn [app] in E. injection E as <- <- <- <-. now repeat split. }
    destruct Hh as (Hh & -> & ->). rewrite E in *. clear Et.
    rewrite (close_pass_skip re_p_close _ _ _ _ _ Rp);
      [|reflexivity|exact Hl|].
    2:{ apply (lit_mismatch [LT; SLASH] (str ">") 112%N [] [LT; SLASH] c2).
        - repeat constructor.
        - apply (ci_differs _ _ _ Hh). vm_compute. discriminate. }
    rewrite (close_pass_skip re_div_close _ _ _ _ _ Rd);
      [|reflexivity|exact Hl|].
    2:{ apply (lit_mismatch [LT; SLASH] (str "iv>") 100%N [] [LT; SLASH] c2).
        - repeat constructor.
        - apply (ci_differs _ _ _ Hh). vm_compute. discriminate. }
    rewrite (close_pass_hit re_h_close _ _ _ _ _ Rh); [reflexivity|reflexivity|].
    unfold re_h_close, lit_ci.
    change ((LT :: [SLASH; c2; d; GT]) ++ ?X)
      with ([LT; SLASH; c2] ++ d :: GT :: X).
    rewrite match_len_lit by exact H.
    cbn [match_len]. rewrite Hd, ci_GT, N.eqb_refl. reflexivity.
Qed.

Lemma close_tag_breaks_witness :
  block_boundaries (str "<h2>Title" ++ str "</H2>" ++ str "Text<br>more")
  = block_boundaries (str "<h2>Title")
    ++ LF :: LF :: block_boundaries (str "Text<br>more").
Proof.
  apply close_tag_breaks. right. right.
  exists (str "</H"), 50%N. repeat split. repeat constructor.
Defined.

(** * The chapter screen *)

Section ChapterNav.

Variables (ident title date series : Type).
Variable strict_eq : ident -> ident -> bool.

Lemma findIndex_from_none {A : Type} (test : A -> bool) (l : list A) :
  (forall x, In x l -> test x = false) ->
  forall k, findIndex_from test l k = (-1)%Z.
Proof.
  induction l as [|x l IH]; intros H k; [reflexivity|].
  cbn [findIndex_from]. rewrite (H x) by now left.
  apply IH. intros y Hy. apply H. now right.
Qed.

Lemma goToIndex_below (chapters : list (chapter ident title date)) (sid : series) (k : Z) :
  (k < 0)%Z -> goToIndex chapters sid k = None.
Proof.
  intros Hk. unfold goToIndex.
  destruct (Z.ltb_spec k 0); [reflexivity|lia].
Qed.

Lemma goToIndex_above (chapters : list (chapter ident title date)) (sid : series) (k : Z) :
  (Z.of_nat (List.length chapters) <= k)%Z ->
  goToIndex chapters sid k = None.
Proof.
  intros Hk. unfold goToIndex.
  destruct (k <? 0)%Z; [reflexivity|]. cbn [orb]. rewrite Z.geb_leb.
  destruct (Z.leb_spec (Z.of_nat (List.length chapters)) k);
    [reflexivity|lia].
Qed.

Lemma goToIndex_nth (chapters : list (chapter ident title date)) (sid : series) (i : nat)
  (ch : chapter ident title date) :
  nth_error chapters i = Some ch ->
  goToIndex chapters sid (Z.of_nat i)
  = Some {| r_id := ch_id ch; r_title := ch_title ch;
            r_series := sid; r_chapters := chapters |}.
Proof.
  intros H. unfold goToIndex. rewrite Z.geb_leb.
  assert (Hi : i < List.length chapters)
    by (apply nth_error_Some; congruence).
  destruct (Z.ltb_spec (Z.of_nat i) 0); [lia|].
  destruct (Z.leb_spec (Z.of_nat (List.length chapters)) (Z.of_nat i));
    [lia|].
  cbn [orb]. now rewrite Nat2Z.id, H.
Qed.

(** X11: when no chapter of the list has the identifier of the chapter on
    screen, "previous" does nothing and "next" opens the first chapter of
    the list, if there is one. *)
Theorem nav_unknown_chapter (chapters : list (chapter ident title date)) (sid : series)
  (id : ident) :
  (forall c, In c chapters -> strict_eq (ch_id c) id = false) ->
  press_previous strict_eq chapters sid id = None
  /\ press_next strict_eq chapters sid id
     = match chapters with
       | [] => None
       | ch :: _ =>
           Some {| r_id := ch_id ch; r_title := ch_title ch;
                   r_series := sid; r_chapters := chapters |}
       end.
Proof.
  intros H.
  assert (E : chapter_idx strict_eq chapters id = (-1)%Z).
  { unfold chapter_idx, findIndex. now apply findIndex_from_none. }
  unfold press_previous, press_next. rewrite E. split.
  - now apply goToIndex_below.
  - destruct chapters as [|ch l]; [reflexivity|].
    now apply (goToIndex_nth (ch :: l) sid 0).
Qed.

Hypothesis strict_eq_spec : forall a b, strict_eq a b = true <-> a = b.

Lemma chapter_idx_nth (chapters : list (chapter ident title date)) (i : nat) (c : chapter ident title date) :
  NoDup (map ch_id chapters) ->
  nth_error chapters i = Some c ->
  chapter_idx strict_eq chapters (ch_id c) = Z.of_nat i.
Proof.
  unfold chapter_idx, findIndex.
  assert (G : forall l i k, NoDup (map (@ch_id ident title date) l) ->
            nth_error l i = Some c ->
            findIndex_from (fun x => strict_eq (ch_id x) (ch_id c)) l k
            = (k + Z.of_nat i)%Z).
  { induction l as [|x l IH]; intros j k Hnd Hn;
      [destruct j; discriminate Hn|].
    cbn [findIndex_from]. destruct j as [|j].
    - injection Hn as ->.
      rewrite (proj2 (strict_eq_spec _ _) eq_refl). cbn. lia.
    - cbn [nth_error] in Hn. cbn [map] in Hnd.
      apply NoDup_cons_iff in Hnd as [Hx Hnd].
      destruct (strict_eq (ch_id x) (ch_id c)) eqn:E.
      + exfalso. apply strict_eq_spec in E. apply Hx. rewrite E.
        apply in_map. eapply nth_error_In; eauto.
      + rewrite (IH j (k + 1)%Z Hnd Hn). lia. }
  intros Hnd Hn. now rewrite (G chapters i 0%Z Hnd Hn).
Qed.

(** X12: in a list of chapters with distinct identifiers, "previous" does
    nothing on the first chapter and "next" does nothing on the last. *)
Theorem nav_stops_at_ends (chapters : list (chapter ident title date)) (sid : series) :
  NoDup (map ch_id chapters) ->
  (forall c rest, chapters = c :: rest ->
     press_previous strict_eq chapters sid (ch_id c) = None)
  /\ (forall pre c, chapters = pre ++ [c] ->
        press_next strict_eq chapters sid (ch_id c) = None).
Proof.
  intros Hnd. split.
  - intros c rest E. unfold press_previous.
    rewrite (chapter_idx_nth chapters 0 c Hnd) by now rewrite E.
    now apply goToIndex_below.
  - intros pre c E. unfold press_next.
    rewrite (chapter_idx_nth chapters (List.length pre) c Hnd).
    + apply goToIndex_above. rewrite E, length_app. cbn. lia.
    + rewrite E, nth_error_app2, Nat.sub_diag by lia. reflexivity.
Qed.

(** X13: in a list of chapters with distinct identifiers, "next" opens the
    chapter that follows the one on screen, with the same list, and
    "previous" on that screen leads back to the chapter one came from. *)
Theorem next_then_previous (chapters : list (chapter ident title date)) (sid : series)
  (i : nat) (c c' : chapter ident title date) :
  NoDup (map ch_id chapters) ->
  nth_error chapters i = Some c ->
  nth_error chapters (S i) = Some c' ->
  press_next strict_eq chapters sid (ch_id c)
  = Some {| r_id := ch_id c'; r_title := ch_title c';
            r_series := sid; r_chapters := chapters |}
  /\ press_previous strict_eq chapters sid (ch_id c')
     = Some {| r_id := ch_id c; r_title := ch_title c;
               r_series := sid; r_chapters := chapters |}.
Proof.
  intros Hnd Hc Hc'. unfold press_next, press_previous.
  rewrite (chapter_idx_nth chapters i c Hnd Hc).
  rewrite (chapter_idx_nth chapters (S i) c' Hnd Hc').
  replace (Z.of_nat i + 1)%Z with (Z.of_nat (S i)) by lia.
  replace (Z.of_nat (S i) - 1)%Z with (Z.of_nat i) by lia.
  split; now apply goToIndex_nth.
Qed.

End ChapterNav.

Lemma nav_unknown_chapter_witness :
  press_previous N.eqb [Build_chapter N unit unit 7%N tt tt] tt 9%N = None
  /\ press_next N.eqb [Build_chapter N unit unit 7%N tt tt] tt 9%N
     = Some (Build_chapter_route 7%N tt tt
               [Build_chapter N unit unit 7%N tt tt]).
Proof.
  apply (nav_unknown_chapter N unit unit unit N.eqb).
  intros c [<-|[]]. reflexivity.
Defined.

Lemma nav_stops_at_ends_witness :
  (forall c rest,
     [Build_chapter N unit unit 7%N tt tt; Build_chapter N unit unit 8%N tt tt]
     = c :: rest ->
     press_previous N.eqb
       [Build_chapter N unit unit 7%N tt tt;
        Build_chapter N unit unit 8%N tt tt] tt (ch_id c) = None)
  /\ (forall pre c,
        [Build_chapter N unit unit 7%N tt tt;
         Build_chapter N unit unit 8%N tt tt] = pre ++ [c] ->
        press_next N.eqb
          [Build_chapter N unit unit 7%N tt tt;
           Build_chapter N unit unit 8%N tt tt] tt (ch_id c) = None).
Proof.
  apply (nav_stops_at_ends N unit unit unit N.eqb N.eqb_eq).
  cbn. repeat constructor; cbn; intuition discriminate.
Defined.

Lemma next_then_previous_witness :
  press_next N.eqb
    [Build_chapter N unit unit 7%N tt tt; Build_chapter N unit unit 8%N tt tt]
    tt 7%N
  = Some (Build_chapter_route 8%N tt tt
            [Build_chapter N unit unit 7%N tt tt;
             Build_chapter N unit unit 8%N tt tt])
  /\ press_previous N.eqb
       [Build_chapter N unit unit 7%N tt tt;
        Build_chapter N unit unit 8%N tt tt] tt 8%N
     = Some (Build_chapter_route 7%N tt tt
               [Build_chapter N unit unit 7%N tt tt;
                Build_chapter N unit unit 8%N tt tt]).
Proof.
  apply (next_then_previous N unit unit unit N.eqb N.eqb_eq
           [Build_chapter N unit unit 7%N tt tt;
            Build_chapter N unit unit 8%N tt tt] tt 0
           (Build_chapter N unit unit 7%N tt tt)
           (Build_chapter N unit unit 8%N tt tt)).
  - cbn. repeat constructor; cbn; intuition discriminate.
  - reflexivity.
  - reflexivity.
Defined.

(** * The favourites *)

Section FavouritesLaws.

Variables (ident name cover : Type).
Variable strict_eq : ident -> ident -> bool.
Variable stringify : list (fav ident name cover) -> jsstring.
Variable parse : jsstring -> option (list (fav ident name cover)).

(** What is read back is what was written, and the text of an array is never
    the empty string. *)
Hypothesis parse_stringify : forall l, parse (stringify l) = Some l.
Hypothesis stringify_truthy : forall l, truthy (stringify l) = true.

(** Identifiers that come out of JSON are never [NaN]: [===] is equality. *)
Hypothesis strict_eq_spec : forall a b, strict_eq a b = true <-> a = b.

Lemma load_after_save (get_ok : bool) (favs : list (fav ident name cover))
  (st : store) :
  loadFavorites parse true (saveFavorites stringify true favs st) = favs.
Proof.
  unfold loadFavorites, saveFavorites.
  now rewrite stringify_truthy, parse_stringify.
Qed.

Lemma is_favourite_without (favs : list (fav ident name cover))
  (id : ident) :
  is_favourite strict_eq (without strict_eq favs id) id = false.
Proof.
  unfold is_favourite, without.
  induction favs as [|x l IH]; [reflexivity|].
  cbn [filter]. destruct (strict_eq (fav_id x) id) eqn:E; cbn [negb];
    [exact IH|].
  cbn [existsb]. now rewrite E, IH.
Qed.

Lemma without_absent (favs : list (fav ident name cover)) (id : ident) :
  is_favourite strict_eq favs id = false -> without strict_eq favs id = favs.
Proof.
  unfold is_favourite, without.
  induction favs as [|x l IH]; [reflexivity|].
  cbn [existsb filter]. intros H. apply orb_false_iff in H as [H1 H2].
  rewrite H1. cbn [negb]. now rewrite IH.
Qed.

Lemma is_favourite_without_other (favs : list (fav ident name cover))
  (id other : ident) :
  other <> id ->
  is_favourite strict_eq (without strict_eq favs id) other
  = is_favourite strict_eq favs other.
Proof.
  intros Hne. unfold is_favourite, without.
  induction favs as [|x l IH]; [reflexivity|].
  cbn [filter existsb]. destruct (strict_eq (fav_id x) id) eqn:E;
    cbn [negb existsb]; rewrite IH; [|reflexivity].
  apply strict_eq_spec in E.
  destruct (strict_eq (fav_id x) other) eqn:E'; [|reflexivity].
  apply strict_eq_spec in E'. congruence.
Qed.

(** X14: when the write goes through, [toggleFav] leaves the flag equal to
    what the details screen computes from the stored favourites: set if and
    only if a stored favourite has the identifier of the series. *)
Theorem toggle_flag_agrees (get_ok : bool) (d : details ident name cover)
  (st : store) (isFav : bool) :
  let (st', isFav') :=
    toggleFav strict_eq stringify parse get_ok true d st isFav in
  is_favourite strict_eq (loadFavorites parse true st') (d_id d) = isFav'.
Proof.
  unfold toggleFav. destruct isFav.
  - rewrite (load_after_save true). apply is_favourite_without.
  - rewrite (load_after_save true). unfold is_favourite.
    cbn [existsb fav_id].
    now rewrite (proj2 (strict_eq_spec _ _) eq_refl).
Qed.

(** X15: when the storage calls go through and the series is not among the
    stored favourites (flag unset), toggling twice leaves the stored
    favourites exactly as they were, and the flag unset. *)
Theorem toggle_twice_restores (d : details ident name cover) (st : store) :
  is_favourite strict_eq (loadFavorites parse true st) (d_id d) = false ->
  let (st1, f1) :=
    toggleFav strict_eq stringify parse true true d st false in
  let (st2, f2) :=
    toggleFav strict_eq stringify parse true true d st1 f1 in
  loadFavorites parse true st2 = loadFavorites parse true st /\ f2 = false.
Proof.
  intros H. unfold toggleFav.
  rewrite !(load_after_save true). split; [|reflexivity].
  unfold without at 1. cbn [filter fav_id].
  rewrite (proj2 (strict_eq_spec _ _) eq_refl). cbn [negb].
  now apply without_absent.
Qed.

(** X16: a storage call that is rejected is not reported.  When the write is
    rejected the flag flips though the store is unchanged; when the read is
    rejected and the write goes through, the stored favourites are replaced:
    by the new entry alone when adding, by nothing when removing. *)
Theorem toggle_storage_errors (get_ok : bool) (d : details ident name cover)
  (st : store) (isFav : bool) :
  toggleFav strict_eq stringify parse get_ok false d st isFav
  = (st, negb isFav)
  /\ loadFavorites parse true
       (fst (toggleFav strict_eq stringify parse false true d st isFav))
     = if isFav then []
       else [Build_fav (d_id d) (d_name _ _ _ d) (d_cover _ _ _ d)].
Proof.
  split.
  - unfold toggleFav, saveFavorites. now destruct isFav.
  - unfold toggleFav. destruct isFav; cbn [fst];
      now rewrite (load_after_save true).
Qed.

(** X17: when the write goes through, [remove] of the library screen stores
    the list it shows; that list has no favourite with the removed
    identifier, keeps every other favourite in place, and the details
    screen of any other series finds it as before. *)
Theorem library_remove_spec (id : ident)
  (favs : option (list (fav ident name cover))) (st : store) :
  let shown := match favs with Some l => l | None => [] end in
  let (next, st') := library_remove strict_eq stringify true id favs st in
  loadFavorites parse true st' = next
  /\ is_favourite strict_eq next id = false
  /\ next = filter (fun x => negb (strict_eq (fav_id x) id)) shown
  /\ forall other, other <> id ->
       is_favourite strict_eq next other
       = is_favourite strict_eq shown other.
Proof.
  unfold library_remove. cbv zeta.
  split; [apply (load_after_save true)|].
  split; [apply is_favourite_without|].
  split; [reflexivity|].
  intros other Hne. now apply is_favourite_without_other.
Qed.

End FavouritesLaws.

(** The instance of the parameters. *)
Lemma ids_parse_stringify (l : list (@fav N unit unit)) :
  ids_parse (ids_stringify l) = Some l.
Proof.
  unfold ids_parse, ids_stringify.
  destruct (map fav_id l ++ [0%N]) as [|c t] eqn:E.
  - destruct (map fav_id l); discriminate E.
  - rewrite <- E, removelast_last, map_map. f_equal.
    rewrite <- (map_id l) at 2. apply map_ext.
    now intros [i [] []].
Qed.

Lemma ids_stringify_truthy (l : list (@fav N unit unit)) :
  truthy (ids_stringify l) = true.
Proof.
  unfold ids_stringify. now destruct (map fav_id l).
Qed.

Lemma toggle_flag_agrees_witness :
  let (st', isFav') :=
    toggleFav N.eqb ids_stringify ids_parse true true
      (Build_details 5%N tt tt) (Some [3%N; 0%N]) false in
  is_favourite N.eqb (loadFavorites ids_parse true st') 5%N = isFav'.
Proof.
  exact (toggle_flag_agrees N unit unit N.eqb ids_stringify ids_parse
           ids_parse_stringify ids_stringify_truthy N.eqb_eq true
           (Build_details 5%N tt tt) (Some [3%N; 0%N]) false).
Defined.

Lemma toggle_twice_restores_witness :
  let (st1, f1) :=
    toggleFav N.eqb ids_stringify ids_parse true true
      (Build_details 5%N tt tt) (Some [3%N; 0%N]) false in
  let (st2, f2) :=
    toggleFav N.eqb ids_stringify ids_parse true true
      (Build_details 5%N tt tt) st1 f1 in
  loadFavorites ids_parse true st2
  = loadFavorites ids_parse true (Some [3%N; 0%N]) /\ f2 = false.
Proof.
  apply (toggle_twice_restores N unit unit N.eqb ids_stringify ids_parse
           ids_parse_stringify ids_stringify_truthy N.eqb_eq
           (Build_details 5%N tt tt) (Some [3%N; 0%N])).
  reflexivity.
Defined.

Lemma toggle_storage_errors_witness :
  toggleFav N.eqb ids_stringify ids_parse true false
    (Build_details 5%N tt tt) (Some [3%N; 0%N]) false
  = (Some [3%N; 0%N], true)
  /\ loadFavorites ids_parse true
       (fst (toggleFav N.eqb ids_stringify ids_parse false true
               (Build_details 5%N tt tt) (Some [3%N; 0%N]) false))
     = [Build_fav 5%N tt tt].
Proof.
  exact (toggle_storage_errors N unit unit N.eqb ids_stringify ids_parse
           ids_parse_stringify ids_stringify_truthy true
           (Build_details 5%N tt tt) (Some [3%N; 0%N]) false).
Defined.

Lemma library_remove_spec_witness :
  let shown := [Build_fav 3%N tt tt; Build_fav 5%N tt tt] in
  let (next, st') :=
    library_remove N.eqb ids_stringify true 3%N
      (Some [Build_fav 3%N tt tt; Build_fav 5%N tt tt]) None in
  loadFavorites ids_parse true st' = next
  /\ is_favourite N.eqb next 3%N = false
  /\ next = filter (fun x => negb (N.eqb (fav_id x) 3%N)) shown
  /\ forall other, other <> 3%N ->
       is_favourite N.eqb next other = is_favourite N.eqb shown other.
Proof.
  exact (library_remove_spec N unit unit N.eqb ids_stringify ids_parse
           ids_parse_stringify ids_stringify_truthy N.eqb_eq 3%N
           (Some [Build_fav 3%N tt tt; Build_fav 5%N tt tt]) None).
Defined.

(** * Blocks, line breaks and angle brackets on the input *)

(** ** Literals in a string *)

Lemma may_begin_false (L x : jsstring) (r : regex) (y : jsstring) :
  may_begin L x = false ->
  match_len (map (fun c => Chr (ci c)) L ++ r) (x ++ y) = None.
Proof.
  revert x. induction L as [|pc L IH]; intros x H; [discriminate|].
  destruct x as [|c x]; [discriminate|].
  cbn [may_begin] in H. cbn [map app match_len].
  destruct (ci pc c); [|reflexivity].
  cbn [andb] in H. now rewrite IH.
Qed.

Lemma opens_nothing_no_start (L s : jsstring) (r : regex) (y : jsstring) :
  opens_nothing L s = true ->
  no_start (map (fun c => Chr (ci c)) L ++ r) s y.
Proof.
  induction s as [|c s IH]; [easy|].
  cbn [opens_nothing no_start]. intros H.
  apply andb_true_iff in H as [H1 H2]. apply negb_true_iff in H1.
  split; [now apply may_begin_false|now apply IH].
Qed.

Lemma opens_nothing_app (L s t : jsstring) :
  opens_nothing L (s ++ t) = true -> opens_nothing L t = true.
Proof.
  induction s as [|c s IH]; [easy|]. cbn [app opens_nothing].
  intros H. apply andb_true_iff in H as [_ H]. now apply IH.
Qed.

Lemma prefix_ci_false_tail (L x : jsstring) (r : regex) (y : jsstring) :
  Forall (fun pc => ci pc LT = false) L ->
  prefix_ci L x = false ->
  match_len (map (fun c => Chr (ci c)) L ++ r) (x ++ LT :: y) = None.
Proof.
  intros HL. revert x. induction HL as [|pc L Hpc _ IH]; intros x H;
    [discriminate|].
  cbn [map app match_len]. destruct x as [|c x]; cbn [app].
  - now rewrite Hpc.
  - cbn [prefix_ci] in H. destruct (ci pc c); [|reflexivity].
    cbn [andb] in H. now rewrite IH.
Qed.

(** The closing tag does not occur in [s]: no occurrence begins in [s]
    when a closing tag follows. *)
Lemma contains_ci_no_start (L s : jsstring) (r : regex) (y : jsstring) :
  Forall (fun pc => ci pc LT = false) L ->
  contains_ci (LT :: L) s = false ->
  no_start (map (fun c => Chr (ci c)) (LT :: L) ++ r) s (LT :: y).
Proof.
  intros HL. induction s as [|c s IH]; [easy|].
  intros H. cbn [contains_ci] in H.
  apply orb_false_iff in H as [H1 H2].
  cbn [no_start]. split; [|now apply IH].
  cbn [prefix_ci] in H1. cbn [map app match_len].
  destruct (ci LT c); [|reflexivity]. cbn [andb] in H1.
  now rewrite (prefix_ci_false_tail L s r y HL H1).
Qed.

Lemma star_lazy_skip (r : regex) (w s : jsstring) :
  no_start r w s ->
  star_lazy any (match_len r) (w ++ s)
  = option_map (Nat.add (List.length w)) (star_lazy any (match_len r) s).
Proof.
  induction w as [|c w IH].
  - intros _. cbn. now destruct (star_lazy _ _ s).
  - intros [H1 H2]. cbn [app] in *. cbn [star_lazy]. rewrite H1.
    unfold any at 1. rewrite (IH H2). cbn [List.length].
    now destruct (star_lazy _ _ s).
Qed.

(** ** Entities do not reach across an angle bracket *)

Lemma decode_entities_at (c : char) (x y : jsstring) :
  c = LT \/ c = GT ->
  decode_entities (x ++ c :: y)
  = decode_entities x ++ c :: decode_entities y.
Proof.
  intros Hc. unfold decode_entities.
  change re_nbsp with (Chr (ci AMP) :: lit_ci "nbsp;").
  change re_amp with (Chr (ci AMP) :: lit_ci "amp;").
  change re_39 with (Chr (ci AMP) :: lit_ci "#39;").
  change re_quot with (Chr (ci AMP) :: lit_ci "quot;").
  change re_lt with (Chr (ci AMP) :: lit_ci "lt;").
  change re_gt with (Chr (ci AMP) :: lit_ci "gt;").
  destruct Hc as [-> | ->]; now rewrite !replace_split_at by reflexivity.
Qed.

Lemma decode_entities_plain (x : jsstring) :
  lacks AMP x -> decode_entities x = x.
Proof.
  intros H. rewrite <- (app_nil_r x) at 1.
  rewrite decode_entities_prefix by exact H.
  now rewrite app_nil_r.
Qed.

(** A tag written without ampersand, from its [<] to its [>], stands in the
    decoded string as it stands in the input. *)
Lemma decode_entities_tag (x t y : jsstring) :
  lacks AMP t ->
  decode_entities (x ++ LT :: t ++ GT :: y)
  = decode_entities x ++ LT :: t ++ GT :: decode_entities y.
Proof.
  intros Ht. rewrite decode_entities_at by now left.
  rewrite decode_entities_prefix by exact Ht.
  change (GT :: y) with ([] ++ GT :: y).
  now rewrite decode_entities_at by now right.
Qed.

Lemma may_begin_app (L x y : jsstring) :
  may_begin L x = false -> may_begin L (x ++ y) = false.
Proof.
  revert x. induction L as [|pc L IH]; intros x H; [discriminate|].
  destruct x as [|c x]; [discriminate|].
  cbn [may_begin app] in *. destruct (ci pc c); [|reflexivity].
  cbn [andb] in *. now apply IH.
Qed.

Lemma opens_nothing_join (L x y : jsstring) :
  opens_nothing L x = true -> opens_nothing L y = true ->
  opens_nothing L (x ++ y) = true.
Proof.
  intros Hx Hy. induction x as [|c x IH]; [exact Hy|].
  cbn [opens_nothing] in Hx. apply andb_true_iff in Hx as [H1 H2].
  apply negb_true_iff in H1.
  change ((c :: x) ++ y) with (c :: (x ++ y)). cbn [opens_nothing].
  apply andb_true_iff. split; [|now apply IH].
  apply negb_true_iff. exact (may_begin_app L (c :: x) y H1).
Qed.

Lemma ci_trans (p c x : char) : ci p c = true -> ci x c = ci x p.
Proof.
  unfold ci. intros H. apply N.eqb_eq in H. now rewrite H.
Qed.

Lemma ci_eq_may_begin (L P t : jsstring) :
  ci_eq P t -> may_begin L t = may_begin L P.
Proof.
  intros H. revert L. induction H as [|p c P t Hc _ IH]; intros L.
  - reflexivity.
  - destruct L as [|pc L]; [reflexivity|].
    cbn [may_begin]. now rewrite (ci_trans p c pc Hc), IH.
Qed.

Lemma ci_eq_opens_nothing (L P t : jsstring) :
  ci_eq P t -> opens_nothing L t = opens_nothing L P.
Proof.
  intros H. induction H as [|p c P t Hc H IH]; [reflexivity|].
  cbn [opens_nothing]. rewrite IH. f_equal. f_equal.
  apply ci_eq_may_begin. now constructor.
Qed.

Lemma lacks_opens_nothing (L s : jsstring) :
  lacks LT s -> opens_nothing (LT :: L) s = true.
Proof.
  induction 1 as [|c s Hc _ IH]; [reflexivity|].
  cbn [opens_nothing may_begin]. rewrite ci_LT, Hc. exact IH.
Qed.

(** The parts of a tag that spells a literal. *)
Lemma tag_parts (x : char) (L t : jsstring) :
  nonletter x -> ci_eq (LT :: L) t -> lacks x L ->
  exists t', t = LT :: t' /\ ci_eq L t' /\ lacks x t'.
Proof.
  intros Hx H HL. inversion H as [|p0 c0 L0 t0 H0 H1]. subst.
  rewrite ci_LT in H0. apply N.eqb_eq in H0. subst c0.
  exists t0. split; [reflexivity|]. split; [exact H1|].
  now apply (ci_eq_lacks x L).
Qed.

Lemma nonletter_AMP : nonletter AMP.
Proof. unfold nonletter, AMP. lia. Qed.

Lemma nonletter_LT : nonletter LT.
Proof. unfold nonletter, LT. lia. Qed.

(** ** An angle bracket that nothing closes *)

(** Every pattern of the tag passes of lines 62-74 ends with [>]: when no
    [>] follows a [<], these passes rewrite only what precedes it. *)
Lemma tag_passes_unclosed (x b : jsstring) :
  lacks GT b ->
  remove_openers (block_boundaries (remove_scripts (x ++ LT :: b)))
  = remove_openers (block_boundaries (remove_scripts x)) ++ LT :: b.
Proof.
  intros Hgt.
  assert (Hg : Forall (fun c => ci GT c = false) (LT :: b)).
  { constructor; [reflexivity|].
    eapply Forall_impl; [|exact Hgt]. intros c Hc. now rewrite ci_GT. }
  unfold remove_scripts, block_boundaries, remove_openers.
  change re_script
    with ((lit_ci "<script" ++ [StarLazy any; Chr (ci GT); StarLazy any]
           ++ lit_ci "</script") ++ [Chr (ci GT)]).
  change re_style
    with ((lit_ci "<style" ++ [StarLazy any; Chr (ci GT); StarLazy any]
           ++ lit_ci "</style") ++ [Chr (ci GT)]).
  change re_br
    with ((lit_ci "<br" ++ [Star is_space; Opt (ci SLASH)]) ++ [Chr (ci GT)]).
  change re_p_close with (lit_ci "</p" ++ [Chr (ci GT)]).
  change re_div_close with (lit_ci "</div" ++ [Chr (ci GT)]).
  change re_h_close with ((lit_ci "</h" ++ [Chr is_1_6]) ++ [Chr (ci GT)]).
  change re_p_open with ((lit_ci "<p" ++ [Star not_gt]) ++ [Chr (ci GT)]).
  change re_div_open with ((lit_ci "<div" ++ [Star not_gt]) ++ [Chr (ci GT)]).
  change re_h_open
    with ((lit_ci "<h" ++ [Chr is_1_6; Star not_gt]) ++ [Chr (ci GT)]).
  now rewrite !(replace_closer (ci GT)) by exact Hg.
Qed.

(** Every entity ends with a semicolon and begins with an ampersand: a
    string without one of the two is decoded to itself. *)
Lemma decode_entities_no_semicolon (b : jsstring) :
  lacks SEMI b -> decode_entities b = b.
Proof.
  intros Hsemi.
  assert (Hs : Forall (fun c => ci SEMI c = false) b).
  { eapply Forall_impl; [|exact Hsemi]. intros c Hc. now rewrite ci_SEMI. }
  unfold decode_entities.
  change re_nbsp with (lit_ci "&nbsp" ++ [Chr (ci SEMI)]).
  change re_amp with (lit_ci "&amp" ++ [Chr (ci SEMI)]).
  change re_39 with (lit_ci "&#39" ++ [Chr (ci SEMI)]).
  change re_quot with (lit_ci "&quot" ++ [Chr (ci SEMI)]).
  change re_lt with (lit_ci "&lt" ++ [Chr (ci SEMI)]).
  change re_gt with (lit_ci "&gt" ++ [Chr (ci SEMI)]).
  rewrite (replace_no_closer (ci SEMI) _ _ b Hs).
  rewrite (replace_no_closer (ci SEMI) _ _ b Hs).
  rewrite (replace_no_closer (ci SEMI) _ _ b Hs).
  rewrite (replace_no_closer (ci SEMI) _ _ b Hs).
  rewrite (replace_no_closer (ci SEMI) _ _ b Hs).
  exact (replace_no_closer (ci SEMI) _ _ b Hs).
Qed.

(** C10, as the claim has it, fails: no [>] follows the [<] of this input,
    but the entity after it is decoded to [>] before the tags are handled;
    the [<] then opens a tag, and the generic tag stripping deletes it. *)
Lemma unclosed_closed_by_entity :
  lacks GT (str " b&gt;")
  /\ before_strip (str "a < b&gt;") = str "a < b>"
  /\ strip_tags (before_strip (str "a < b&gt;")) = str "a "
  /\ htmlToParagraphs (VString (str "a < b&gt;")) = Normal [str "a"].
Proof.
  split; [repeat constructor|]. repeat split; vm_compute; reflexivity.
Qed.

(** C10, as the code has it: a [<] of the input after which no [>] is left
    once the entities of lines 54-59 are decoded reaches the generic tag
    stripping of line 77 with the decoded text that follows it, is not
    removed there, and is found in one of the paragraphs returned.  This is
    so, in particular, when the input has after the [<] no [>] and, besides,
    no semicolon or no ampersand: the text after the [<] is then decoded to
    itself.  normalize("a < b") returns ["a < b"]. *)
Theorem unclosed_angle_bracket_kept (a b : jsstring) :
  (lacks GT (decode_entities b) ->
   before_strip (a ++ LT :: b) = before_strip a ++ LT :: decode_entities b
   /\ strip_tags (before_strip (a ++ LT :: b))
      = strip_tags (before_strip a) ++ LT :: decode_entities b
   /\ exists paras p,
        htmlToParagraphs (VString (a ++ LT :: b)) = Normal paras
        /\ In p paras /\ In LT p)
  /\ (lacks GT b -> lacks SEMI b \/ lacks AMP b ->
      decode_entities b = b
      /\ strip_tags (before_strip (a ++ LT :: b))
         = strip_tags (before_strip a) ++ LT :: b
      /\ exists paras p,
           htmlToParagraphs (VString (a ++ LT :: b)) = Normal paras
           /\ In p paras /\ In LT p)
  /\ htmlToParagraphs (VString (str "a < b")) = Normal [str "a < b"].
Proof.
  assert (K : lacks GT (decode_entities b) ->
              before_strip (a ++ LT :: b)
              = before_strip a ++ LT :: decode_entities b
              /\ strip_tags (before_strip (a ++ LT :: b))
                 = strip_tags (before_strip a) ++ LT :: decode_entities b
              /\ exists paras p,
                   htmlToParagraphs (VString (a ++ LT :: b)) = Normal paras
                   /\ In p paras /\ In LT p).
  { intros Hgt.
    assert (E : before_strip (a ++ LT :: b)
                = before_strip a ++ LT :: decode_entities b).
    { unfold before_strip.
      rewrite (decode_entities_at LT a b) by now left.
      now apply tag_passes_unclosed. }
    split; [exact E|]. split.
    - rewrite E. now apply strip_tags_unclosed.
    - exact (unclosed_in_output (a ++ LT :: b) (before_strip a)
               (decode_entities b) E Hgt). }
  split; [exact K|]. split; [|vm_compute; reflexivity].
  intros Hgt Hb.
  assert (E : decode_entities b = b).
  { destruct Hb as [Hb|Hb];
      [now apply decode_entities_no_semicolon
      |now apply decode_entities_plain]. }
  rewrite E in K. destruct (K Hgt) as (_ & K2 & K3).
  split; [exact E|]. split; [exact K2|exact K3].
Qed.

Lemma unclosed_angle_bracket_kept_witness :
  lacks GT (decode_entities (str " b &amp; c; d"))
  /\ strip_tags (before_strip (str "<p>x</p>a " ++ LT :: str " b &amp; c; d"))
     = strip_tags (before_strip (str "<p>x</p>a "))
       ++ LT :: decode_entities (str " b &amp; c; d").
Proof.
  assert (H : lacks GT (decode_entities (str " b &amp; c; d")))
    by (vm_compute; repeat constructor).
  split; [exact H|].
  exact (proj1 (proj2 (proj1 (unclosed_angle_bracket_kept
                                (str "<p>x</p>a ") (str " b &amp; c; d")) H))).
Defined.

(** ** Line-break tags in the input *)

Lemma is_space_lacks (x : char) (ws : jsstring) :
  is_space x = false -> Forall (fun c => is_space c = true) ws -> lacks x ws.
Proof.
  intros Hx H. eapply Forall_impl; [|exact H]. intros c Hc.
  destruct (N.eqb_spec c x) as [->|]; [congruence|reflexivity].
Qed.

Lemma br_tag_shape (x : char) (tag ws sl : jsstring) :
  nonletter x -> lacks x (str "br") ->
  is_space x = false -> (SLASH =? x)%N = false ->
  ci_eq (str "<br") tag ->
  Forall (fun c => is_space c = true) ws ->
  sl = [] \/ sl = [SLASH] ->
  exists t', tag = LT :: t' /\ ci_eq (str "br") t' /\ lacks x (t' ++ ws ++ sl).
Proof.
  intros Hx Hbr Hsp Hsl Ht Hw Hs.
  destruct (tag_parts x (str "br") tag Hx Ht Hbr) as (t' & -> & Ht' & Hl).
  exists t'. split; [reflexivity|]. split; [exact Ht'|].
  repeat (apply lacks_app; split); [exact Hl|now apply is_space_lacks|].
  destruct Hs as [-> | ->]; now repeat constructor.
Qed.

(** Decoding the entities leaves a line-break tag as it is written. *)
Lemma decode_entities_br (a tag ws sl b : jsstring) :
  ci_eq (str "<br") tag ->
  Forall (fun c => is_space c = true) ws ->
  sl = [] \/ sl = [SLASH] ->
  decode_entities (a ++ tag ++ ws ++ sl ++ GT :: b)
  = decode_entities a ++ tag ++ ws ++ sl ++ GT :: decode_entities b.
Proof.
  intros Ht Hw Hs.
  assert (Hbr : lacks AMP (str "br")) by now repeat constructor.
  destruct (br_tag_shape AMP tag ws sl nonletter_AMP Hbr eq_refl eq_refl
              Ht Hw Hs) as (t' & -> & _ & Hl).
  cbn [app].
  replace (t' ++ ws ++ sl ++ GT :: b) with ((t' ++ ws ++ sl) ++ GT :: b)
    by now rewrite <- !app_assoc.
  rewrite decode_entities_tag by exact Hl.
  now rewrite <- !app_assoc.
Qed.

(** A pass whose pattern begins with a literal goes over a stretch in which
    the literal does not occur and over a tag in which it cannot begin. *)
Lemma replace_over_tag (L : jsstring) (r : regex) (rep A T' B : jsstring) :
  Forall (fun pc => ci pc LT = false) L ->
  contains_ci (LT :: L) A = false ->
  opens_nothing (LT :: L) (LT :: T') = true ->
  replace (map (fun c => Chr (ci c)) (LT :: L) ++ r) rep
    (A ++ (LT :: T') ++ B)
  = A ++ (LT :: T') ++ replace (map (fun c => Chr (ci c)) (LT :: L) ++ r) rep B.
Proof.
  intros HL HA HT.
  rewrite replace_no_start
    by (cbn [app]; now apply contains_ci_no_start).
  f_equal. apply replace_no_start. now apply opens_nothing_no_start.
Qed.

Lemma br_opens_nothing (L tag ws sl : jsstring) :
  opens_nothing (LT :: L) (str "<br") = true ->
  ci_eq (str "<br") tag ->
  Forall (fun c => is_space c = true) ws ->
  sl = [] \/ sl = [SLASH] ->
  opens_nothing (LT :: L) (tag ++ ws ++ sl ++ [GT]) = true.
Proof.
  intros HL Ht Hw Hs. apply opens_nothing_join.
  - now rewrite (ci_eq_opens_nothing _ _ _ Ht).
  - apply lacks_opens_nothing.
    repeat (apply lacks_app; split);
      [now apply is_space_lacks| |now repeat constructor].
    destruct Hs as [-> | ->]; now repeat constructor.
Qed.

(** The deletion of the script and style blocks goes over a line-break tag
    before which neither a script nor a style block is opened. *)
Lemma remove_scripts_over_br (A tag ws sl B : jsstring) :
  ci_eq (str "<br") tag ->
  Forall (fun c => is_space c = true) ws ->
  sl = [] \/ sl = [SLASH] ->
  contains_ci (str "<script") A = false ->
  contains_ci (str "<style") A = false ->
  remove_scripts (A ++ tag ++ ws ++ sl ++ GT :: B)
  = A ++ tag ++ ws ++ sl ++ GT :: remove_scripts B.
Proof.
  intros Ht Hw Hs H1 H2.
  pose proof (br_opens_nothing (str "script") tag ws sl eq_refl Ht Hw Hs) as O1.
  pose proof (br_opens_nothing (str "style") tag ws sl eq_refl Ht Hw Hs) as O2.
  assert (E : exists T', tag ++ ws ++ sl ++ [GT] = LT :: T').
  { inversion Ht as [|p0 c0 L0 t0 H0 _]. subst.
    rewrite ci_LT in H0. apply N.eqb_eq in H0. subst c0.
    now eexists. }
  destruct E as (T' & E).
  assert (F : forall X, A ++ tag ++ ws ++ sl ++ GT :: X
                        = A ++ (LT :: T') ++ X).
  { intros X. rewrite <- E. now rewrite <- !app_assoc. }
  rewrite E in O1, O2. rewrite !F.
  unfold remove_scripts. rewrite re_script_shape, re_style_shape.
  rewrite (replace_over_tag (str "script")) by
    first [exact H1 | exact O1 | now repeat constructor].
  now rewrite (replace_over_tag (str "style")) by
    first [exact H2 | exact O2 | now repeat constructor].
Qed.

(** After [<br] and white space, a character that is neither a slash nor
    [>] keeps the pattern of line 66 from matching. *)
Lemma br_tail_mismatch (ws : jsstring) (c : char) (y : jsstring) :
  Forall (fun x => is_space x = true) ws ->
  is_space c = false -> (c =? SLASH)%N = false -> (c =? GT)%N = false ->
  star_greedy is_space (match_len [Opt (ci SLASH); Chr (ci GT)])
    (ws ++ c :: y) = None.
Proof.
  intros Hw Hsp Hsl Hgt.
  assert (K : forall x s, (x =? SLASH)%N = false -> (x =? GT)%N = false ->
            match_len [Opt (ci SLASH); Chr (ci GT)] (x :: s) = None).
  { intros x s X1 X2. cbn [match_len].
    rewrite (ci_other SLASH) by (unfold SLASH; lia).
    now rewrite X1, ci_GT, X2. }
  induction Hw as [|x ws Hx _ IH]; cbn [app star_greedy].
  - rewrite Hsp. now apply K.
  - rewrite Hx, IH. apply K.
    + destruct (N.eqb_spec x SLASH) as [->|]; [discriminate|reflexivity].
    + destruct (N.eqb_spec x GT) as [->|]; [discriminate|reflexivity].
Qed.

(** The block-boundary stage leaves such a tag in place. *)
Lemma br_tag_left (a tag ws : jsstring) (c : char) (y : jsstring) :
  ci_eq (str "<br") tag ->
  Forall (fun x => is_space x = true) ws ->
  is_space c = false -> (c =? SLASH)%N = false -> (c =? GT)%N = false ->
  block_boundaries (a ++ tag ++ ws ++ c :: y)
  = block_boundaries a ++ tag ++ ws ++ block_boundaries (c :: y).
Proof.
  intros Ht Hw Hsp Hsl Hgt.
  assert (Mbr : forall X,
            X = c :: y -> match_len re_br (tag ++ ws ++ X) = None).
  { intros X ->. unfold re_br, lit_ci.
    rewrite match_len_lit by exact Ht. cbn [match_len].
    now rewrite br_tail_mismatch. }
  assert (Hbr : lacks LT (str "br")) by now repeat constructor.
  destruct (br_tag_shape LT tag ws [] nonletter_LT Hbr eq_refl eq_refl Ht Hw
              (or_introl eq_refl)) as (t' & -> & Ht' & Hl).
  rewrite app_nil_r in Hl.
  inversion Ht' as [|p1 d L1 t1 Hd Ht1]. subst.
  assert (Hsd : ci SLASH d = false).
  { apply (ci_differs _ _ _ Hd). vm_compute. discriminate. }
  assert (Mcl : forall R r X,
            match_len (map (fun c => Chr (ci c)) ([LT] ++ SLASH :: R) ++ r)
              (LT :: (d :: t1 ++ ws) ++ X) = None).
  { intros R r X.
    apply (lit_mismatch [LT] R SLASH r [LT] d ((t1 ++ ws) ++ X));
      [now repeat constructor|exact Hsd]. }
  assert (F : forall A X, A ++ (LT :: d :: t1) ++ ws ++ X
                          = A ++ (LT :: d :: t1 ++ ws) ++ X).
  { intros A X. cbn [app]. now rewrite <- app_assoc. }
  unfold block_boundaries. rewrite !F.
  assert (M : match_len re_br (LT :: (d :: t1 ++ ws) ++ c :: y) = None).
  { specialize (Mbr (c :: y) eq_refl). cbn [app] in *.
    now rewrite <- app_assoc. }
  rewrite (close_pass_skip re_br _ [LF] a (d :: t1 ++ ws) (c :: y) re_br_head
             eq_refl Hl M).
  rewrite (close_pass_skip re_p_close (lit_ci "/p>") [LF; LF] _
             (d :: t1 ++ ws) _ eq_refl eq_refl Hl (Mcl (str "p>") [] _)).
  rewrite (close_pass_skip re_div_close (lit_ci "/div>") [LF; LF] _
             (d :: t1 ++ ws) _ eq_refl eq_refl Hl (Mcl (str "div>") [] _)).
  exact (close_pass_skip re_h_close
           (lit_ci "/h" ++ [Chr is_1_6; Chr (ci GT)]) [LF; LF] _
           (d :: t1 ++ ws) _ eq_refl eq_refl Hl
           (Mcl (str "h") [Chr is_1_6; Chr (ci GT)] _)).
Qed.

(** C3, as the claim has it, fails twice.  A line-break tag that carries an
    attribute is left alone by the block-boundary stage, and no newline
    separates the two lines in the output.  A line-break tag inside a script
    block is deleted with the block before the block-boundary stage runs. *)
Lemma line_break_not_converted :
  block_boundaries (str "Line1<br clear=all>Line2")
  = str "Line1<br clear=all>Line2"
  /\ htmlToParagraphs (VString (str "Line1<br clear=all>Line2"))
     = Normal [str "Line1Line2"]
  /\ remove_scripts (decode_entities (str "a<script>x<br>y</script>b"))
     = str "ab"
  /\ htmlToParagraphs (VString (str "a<script>x<br>y</script>b"))
     = Normal [str "ab"]
  /\ htmlToParagraphs (VString (str "Line1<br>Line2"))
     = Normal [str "Line1" ++ [LF] ++ str "Line2"].
Proof. repeat split; vm_compute; reflexivity. Qed.

(** C3, as the code has it.  Take a line-break tag written [<br], then any amount of
    white space, then an optional slash, then [>] (letters in either case).
    Wherever it stands in the string that the block-boundary step receives,
    that step turns it into a single newline, and converts what precedes and
    what follows it independently; the step runs before the generic tag
    stripping.  Wherever it stands in the input, provided that neither
    [<script] nor [<style] occurs before it once the entities are decoded, it
    reaches that step as it is written and is turned into a single newline
    there.  When [<br] and the white space are followed by a character that
    is neither white space, nor a slash, nor [>], as in a tag with
    attributes, the step leaves the tag in place and puts no newline.
    normalize("Line1<br>Line2") returns ["Line1\nLine2"]. *)
Theorem line_break_tag_converted (a tag ws sl b : jsstring) :
  ci_eq (str "<br") tag ->
  Forall (fun c => is_space c = true) ws ->
  sl = [] \/ sl = [SLASH] ->
  block_boundaries (a ++ tag ++ ws ++ sl ++ GT :: b)
  = block_boundaries a ++ LF :: block_boundaries b
  /\ (contains_ci (str "<script") (decode_entities a) = false ->
      contains_ci (str "<style") (decode_entities a) = false ->
      remove_scripts (decode_entities (a ++ tag ++ ws ++ sl ++ GT :: b))
      = decode_entities a ++ tag ++ ws ++ sl
        ++ GT :: remove_scripts (decode_entities b)
      /\ block_boundaries
           (remove_scripts (decode_entities (a ++ tag ++ ws ++ sl ++ GT :: b)))
         = block_boundaries (decode_entities a)
           ++ LF :: block_boundaries (remove_scripts (decode_entities b))
      /\ before_strip (a ++ tag ++ ws ++ sl ++ GT :: b)
         = remove_openers
             (block_boundaries (decode_entities a)
              ++ LF :: block_boundaries (remove_scripts (decode_entities b))))
  /\ (forall c y,
        is_space c = false -> c <> SLASH -> c <> GT ->
        block_boundaries (a ++ tag ++ ws ++ c :: y)
        = block_boundaries a ++ tag ++ ws ++ block_boundaries (c :: y))
  /\ htmlToParagraphs (VString (str "Line1<br>Line2"))
     = Normal [str "Line1" ++ [LF] ++ str "Line2"].
Proof.
  intros Ht Hw Hs.
  assert (Stage : forall x z,
            block_boundaries (x ++ tag ++ ws ++ sl ++ GT :: z)
            = block_boundaries x ++ LF :: block_boundaries z)
    by (intros x z; now apply br_becomes_newline).
  split; [apply Stage|]. split; [|split; [|vm_compute; reflexivity]].
  - intros H1 H2.
    assert (E : remove_scripts
                  (decode_entities (a ++ tag ++ ws ++ sl ++ GT :: b))
                = decode_entities a ++ tag ++ ws ++ sl
                  ++ GT :: remove_scripts (decode_entities b)).
    { rewrite decode_entities_br by assumption.
      now apply remove_scripts_over_br. }
    split; [exact E|].
    assert (E' : block_boundaries
                   (remove_scripts
                      (decode_entities (a ++ tag ++ ws ++ sl ++ GT :: b)))
                 = block_boundaries (decode_entities a)
                   ++ LF :: block_boundaries
                              (remove_scripts (decode_entities b)))
      by (rewrite E; apply Stage).
    split; [exact E'|]. unfold before_strip. now rewrite E'.
  - intros c y Hc Hsl Hgt. apply br_tag_left; try assumption.
    + now apply N.eqb_neq.
    + now apply N.eqb_neq.
Qed.

Lemma line_break_tag_converted_witness :
  ci_eq (str "<br") (str "<BR")
  /\ contains_ci (str "<script") (decode_entities (str "x &lt;b&gt;y</b>"))
     = false
  /\ contains_ci (str "<style") (decode_entities (str "x &lt;b&gt;y</b>"))
     = false
  /\ block_boundaries
       (remove_scripts
          (decode_entities
             (str "x &lt;b&gt;y</b>" ++ str "<BR" ++ str " " ++ [SLASH]
              ++ GT :: str "z<script>w</script>")))
     = block_boundaries (decode_entities (str "x &lt;b&gt;y</b>"))
       ++ LF :: block_boundaries
                  (remove_scripts (decode_entities (str "z<script>w</script>"))).
Proof.
  assert (Ht : ci_eq (str "<br") (str "<BR")) by (repeat constructor).
  assert (Hw : Forall (fun c => is_space c = true) (str " "))
    by (repeat constructor).
  split; [exact Ht|]. split; [reflexivity|]. split; [reflexivity|].
  exact (proj1 (proj2 (proj1 (proj2
           (line_break_tag_converted (str "x &lt;b&gt;y</b>") (str "<BR")
              (str " ") [SLASH] (str "z<script>w</script>")
              Ht Hw (or_intror eq_refl)))
           eq_refl eq_refl))).
Defined.

(** ** Script and style blocks in the input *)

Lemma block_pattern_shape (k : block_kind) :
  block_pattern k
  = map (fun c => Chr (ci c)) (open_tag k)
    ++ [StarLazy any; Chr (ci GT); StarLazy any]
    ++ map (fun c => Chr (ci c)) (close_tag k).
Proof. destruct k; reflexivity. Qed.

(** The pattern matches from the opening tag to the first closing tag after
    the first [>]. *)
Lemma match_len_first_close (L1 L2 opn attrs body cls rest : jsstring) :
  ci_eq L1 opn -> ci_eq (LT :: L2) cls ->
  Forall (fun pc => ci pc LT = false) L2 ->
  lacks GT attrs -> contains_ci (LT :: L2) body = false ->
  match_len
    (map (fun c => Chr (ci c)) L1
     ++ [StarLazy any; Chr (ci GT); StarLazy any]
     ++ map (fun c => Chr (ci c)) (LT :: L2))
    ((opn ++ attrs ++ GT :: body ++ cls) ++ rest)
  = Some (List.length (opn ++ attrs ++ GT :: body ++ cls)).
Proof.
  intros Ho Hc HL Ha Hb.
  assert (Ec : exists c', cls = LT :: c').
  { inversion Hc as [|p0 c0 L0 t0 H0 _]. subst.
    rewrite ci_LT in H0. apply N.eqb_eq in H0. subst c0. now eexists. }
  destruct Ec as (c' & Ec).
  rewrite <- !app_assoc, match_len_lit by exact Ho.
  cbn [app map].
  assert (Hclose :
    match_len (StarLazy any :: Chr (ci LT) :: map (fun c => Chr (ci c)) L2)
      (body ++ cls ++ rest) = Some (List.length (body ++ cls))).
  { rewrite match_len_StarLazy, star_lazy_skip.
    2:{ pose proof (contains_ci_no_start L2 body [] (c' ++ rest) HL Hb) as N.
        rewrite app_nil_r in N. rewrite Ec. exact N. }
    pose proof (match_len_lit (LT :: L2) cls [] rest Hc) as M.
    rewrite app_nil_r in M. cbn [map match_len option_map] in M.
    rewrite (star_lazy_hit _ _ _ _ M). cbn [option_map].
    now rewrite length_app, Nat.add_0_r. }
  rewrite match_len_StarLazy, star_lazy_run.
  2:{ eapply Forall_impl; [|exact Ha]. intros c Hx. split; [reflexivity|].
      now rewrite ci_GT. }
  rewrite (star_lazy_hit _ _ _ (S (List.length (body ++ cls)))).
  2:{ rewrite match_len_Chr, <- app_assoc, Hclose; [reflexivity|].
      now rewrite ci_GT, N.eqb_refl. }
  cbn [option_map]. rewrite !length_app. cbn [List.length].
  now rewrite !length_app.
Qed.

(** The pass deletes the first block of its kind. *)
Lemma replace_first_block (L1 L2 A opn attrs body cls rest : jsstring) :
  ci_eq (LT :: L1) opn -> ci_eq (LT :: L2) cls ->
  Forall (fun pc => ci pc LT = false) L1 ->
  Forall (fun pc => ci pc LT = false) L2 ->
  contains_ci (LT :: L1) A = false ->
  lacks GT attrs -> contains_ci (LT :: L2) body = false ->
  replace
    (map (fun c => Chr (ci c)) (LT :: L1)
     ++ [StarLazy any; Chr (ci GT); StarLazy any]
     ++ map (fun c => Chr (ci c)) (LT :: L2)) []
    (A ++ opn ++ attrs ++ GT :: body ++ cls ++ rest)
  = A ++ replace
           (map (fun c => Chr (ci c)) (LT :: L1)
            ++ [StarLazy any; Chr (ci GT); StarLazy any]
            ++ map (fun c => Chr (ci c)) (LT :: L2)) [] rest.
Proof.
  intros Ho Hc HL1 HL2 HA Ha Hb.
  pose proof (match_len_first_close (LT :: L1) L2 opn attrs body cls rest
                Ho Hc HL2 Ha Hb) as M.
  assert (Eo : exists o', opn = LT :: o').
  { inversion Ho as [|p0 c0 L0 t0 H0 _]. subst.
    rewrite ci_LT in H0. apply N.eqb_eq in H0. subst c0. now eexists. }
  destruct Eo as (o' & Eo).
  rewrite replace_no_start
    by (rewrite Eo; cbn [app]; now apply contains_ci_no_start).
  f_equal.
  replace (opn ++ attrs ++ GT :: body ++ cls ++ rest)
    with ((opn ++ attrs ++ GT :: body ++ cls) ++ rest)
    by (rewrite <- !app_assoc; cbn [app]; now rewrite <- !app_assoc).
  rewrite replace_match; [reflexivity| |exact M].
  rewrite Eo. discriminate.
Qed.

(** Decoding the entities leaves the two tags of a block as they are
    written, and decodes what lies before, between and after them
    independently. *)
Lemma decode_entities_block (k : block_kind)
  (a opn attrs body cls b : jsstring) :
  ci_eq (open_tag k) opn -> ci_eq (close_tag k) cls ->
  decode_entities (a ++ opn ++ attrs ++ GT :: body ++ cls ++ b)
  = decode_entities a ++ opn ++ decode_entities attrs
    ++ GT :: decode_entities body ++ cls ++ decode_entities b.
Proof.
  intros Ho Hc.
  assert (P : exists o' c', opn = LT :: o' /\ cls = LT :: c'
                            /\ lacks AMP o' /\ lacks AMP c').
  { destruct k.
    - destruct (tag_parts AMP (str "script") opn nonletter_AMP Ho)
        as (o' & -> & _ & Hlo); [now repeat constructor|].
      destruct (tag_parts AMP (str "/script>") cls nonletter_AMP Hc)
        as (c' & -> & _ & Hlc); [now repeat constructor|].
      now exists o', c'.
    - destruct (tag_parts AMP (str "style") opn nonletter_AMP Ho)
        as (o' & -> & _ & Hlo); [now repeat constructor|].
      destruct (tag_parts AMP (str "/style>") cls nonletter_AMP Hc)
        as (c' & -> & _ & Hlc); [now repeat constructor|].
      now exists o', c'. }
  destruct P as (o' & c' & -> & -> & Hlo & Hlc).
  cbn [app].
  rewrite (decode_entities_at LT a) by now left.
  rewrite (decode_entities_prefix o') by exact Hlo.
  rewrite (decode_entities_at GT attrs) by now right.
  rewrite (decode_entities_at LT body) by now left.
  now rewrite (decode_entities_prefix c') by exact Hlc.
Qed.

Lemma remove_scripts_prefix (A Y : jsstring) :
  no_block_start A = true -> remove_scripts (A ++ Y) = A ++ remove_scripts Y.
Proof.
  unfold no_block_start. intros H. apply andb_true_iff in H as [H1 H2].
  unfold remove_scripts. rewrite re_script_shape, re_style_shape.
  rewrite (replace_no_start _ [] A Y)
    by now apply (opens_nothing_no_start (str "<script")).
  now rewrite replace_no_start
    by now apply (opens_nothing_no_start (str "<style")).
Qed.

(** The pass of a kind deletes the first block of that kind in the string
    it receives, and goes on with what follows the block. *)
Lemma pass_block (k : block_kind) (A opn attrs body cls B : jsstring) :
  ci_eq (open_tag k) opn -> ci_eq (close_tag k) cls ->
  lacks GT attrs ->
  contains_ci (close_tag k) body = false ->
  contains_ci (open_tag k) A = false ->
  replace (block_pattern k) [] (A ++ opn ++ attrs ++ GT :: body ++ cls ++ B)
  = A ++ replace (block_pattern k) [] B.
Proof.
  intros Ho Hc Ha Hb HA. destruct k; cbn [block_pattern].
  - rewrite re_script_shape.
    apply (replace_first_block (str "script") (str "/script>"));
      first [assumption | now repeat constructor].
  - rewrite re_style_shape.
    apply (replace_first_block (str "style") (str "/style>"));
      first [assumption | now repeat constructor].
Qed.

Lemma through_block (k : block_kind) (A opn attrs body cls B : jsstring) :
  ci_eq (open_tag k) opn -> ci_eq (close_tag k) cls ->
  lacks GT attrs ->
  contains_ci (close_tag k) body = false ->
  contains_ci (open_tag k) A = false ->
  k = ScriptBlock
  \/ contains_ci (str "<script") (A ++ opn ++ attrs ++ GT :: body) = false ->
  through k (A ++ opn ++ attrs ++ GT :: body ++ cls ++ B) = A ++ through k B.
Proof.
  intros Ho Hc Ha Hb HA Hs. destruct k.
  - now apply (pass_block ScriptBlock).
  - destruct Hs as [Hs|Hs]; [discriminate|].
    unfold through.
    assert (Ec : exists c', cls = LT :: c').
    { inversion Hc as [|p0 c0 L0 t0 H0 _]. subst.
      rewrite ci_LT in H0. apply N.eqb_eq in H0. subst c0. now eexists. }
    destruct Ec as (c' & Ec).
    assert (Hopen : opens_nothing (str "<script") (LT :: c') = true).
    { rewrite <- Ec. now rewrite (ci_eq_opens_nothing _ _ _ Hc). }
    assert (E : replace re_script []
                  (A ++ opn ++ attrs ++ GT :: body ++ cls ++ B)
                = A ++ opn ++ attrs ++ GT :: body ++ cls
                  ++ replace re_script [] B).
    { replace (A ++ opn ++ attrs ++ GT :: body ++ cls ++ B)
        with ((A ++ opn ++ attrs ++ GT :: body) ++ (LT :: c') ++ B)
        by (rewrite Ec, <- ?app_assoc; cbn [app];
            now rewrite <- ?app_assoc).
      rewrite re_script_shape.
      rewrite (replace_over_tag (str "script")) by
        first [exact Hs | exact Hopen | now repeat constructor].
      rewrite Ec, <- ?app_assoc. cbn [app]. now rewrite <- ?app_assoc. }
    rewrite E. now apply (pass_block StyleBlock).
Qed.

(** C2, as the code has it.  A block is an opening tag [<script] or
    [<style], any text up to the first [>], a content in which the closing
    tag of the block does not occur, and the closing tag [</script>] or
    [</style>] (letters in either case).  The script pass of line 62 and the
    style pass of line 63 run before any other tag processing, each once.
    In the string that it receives, the pass of a kind deletes with its
    entire content the block before which the opening tag of that kind does
    not occur, leaves what precedes the block as it is, and goes on with
    what follows it.  In the input, take a block whose text, content and
    preceding text meet these conditions once their entities are decoded,
    and, for a style block, let [<script] not occur before its closing tag:
    the pass of its kind deletes it in the same way.  When moreover no
    beginning of [<script] or [<style] stands before the block that the
    text after it could complete, the string handed to the later steps is
    the decoded text before the block followed by what the two passes make
    of the text after it; and when cutting the block out of the input
    brings no entity together, the input with the block and the input
    without it give the same output.
    normalize("<script>evil()</script><p>Safe</p>") returns exactly
    ["Safe"]. *)
Theorem block_deleted_by_its_pass (k : block_kind)
  (a opn attrs body cls b : jsstring) :
  ci_eq (open_tag k) opn -> ci_eq (close_tag k) cls ->
  (lacks GT attrs ->
   contains_ci (close_tag k) body = false ->
   contains_ci (open_tag k) a = false ->
   replace (block_pattern k) [] (a ++ opn ++ attrs ++ GT :: body ++ cls ++ b)
   = a ++ replace (block_pattern k) [] b)
  /\ (lacks GT (decode_entities attrs) ->
      contains_ci (close_tag k) (decode_entities body) = false ->
      contains_ci (open_tag k) (decode_entities a) = false ->
      k = ScriptBlock
      \/ contains_ci (str "<script")
           (decode_entities a ++ opn ++ decode_entities attrs
            ++ GT :: decode_entities body) = false ->
      through k
        (decode_entities (a ++ opn ++ attrs ++ GT :: body ++ cls ++ b))
      = decode_entities a ++ through k (decode_entities b)
      /\ (no_block_start (decode_entities a) = true ->
          remove_scripts
            (decode_entities (a ++ opn ++ attrs ++ GT :: body ++ cls ++ b))
          = decode_entities a ++ remove_scripts (decode_entities b)
          /\ (decode_entities (a ++ b)
              = decode_entities a ++ decode_entities b ->
              htmlToParagraphs
                (VString (a ++ opn ++ attrs ++ GT :: body ++ cls ++ b))
              = htmlToParagraphs (VString (a ++ b)))))
  /\ htmlToParagraphs (VString (str "<script>evil()</script><p>Safe</p>"))
     = Normal [str "Safe"].
Proof.
  intros Ho Hc.
  split; [now apply pass_block|]. split; [|vm_compute; reflexivity].
  intros Ha Hb HA Hs.
  assert (T : through k
                (decode_entities
                   (a ++ opn ++ attrs ++ GT :: body ++ cls ++ b))
              = decode_entities a ++ through k (decode_entities b)).
  { rewrite (decode_entities_block k) by assumption.
    now apply through_block. }
  split; [exact T|].
  intros Hn.
  assert (R : remove_scripts
                (decode_entities
                   (a ++ opn ++ attrs ++ GT :: body ++ cls ++ b))
              = decode_entities a ++ remove_scripts (decode_entities b)).
  { destruct k; [|exact T].
    unfold remove_scripts. unfold through in T. rewrite T.
    unfold no_block_start in Hn. apply andb_true_iff in Hn as [_ Hn].
    rewrite re_style_shape. apply replace_no_start.
    now apply (opens_nothing_no_start (str "<style")). }
  split; [exact R|]. intros D.
  rewrite !htmlToParagraphs_string. unfold clean, before_strip.
  rewrite R, D. now rewrite remove_scripts_prefix.
Qed.

Lemma block_deleted_by_its_pass_witness :
  htmlToParagraphs
    (VString (str "<strong>" ++ str "<SCRIPT" ++ str " type=x"
              ++ GT :: str "if (a < b && c) go()" ++ str "</script>"
              ++ str "Safe</strong>"))
  = htmlToParagraphs (VString (str "<strong>" ++ str "Safe</strong>"))
  /\ through StyleBlock
       (decode_entities
          (str "x &amp; y" ++ str "<style" ++ []
           ++ GT :: str "p &gt; a { color: red }" ++ str "</STYLE>"
           ++ str "z<style>q</style>"))
     = decode_entities (str "x &amp; y")
       ++ through StyleBlock (decode_entities (str "z<style>q</style>")).
Proof.
  split.
  - assert (Ho : ci_eq (open_tag ScriptBlock) (str "<SCRIPT"))
      by (repeat constructor).
    assert (Hc : ci_eq (close_tag ScriptBlock) (str "</script>"))
      by (repeat constructor).
    assert (Ha : lacks GT (decode_entities (str " type=x")))
      by (vm_compute; repeat constructor).
    exact (proj2 (proj2 (proj1 (proj2
             (block_deleted_by_its_pass ScriptBlock (str "<strong>")
                (str "<SCRIPT") (str " type=x") (str "if (a < b && c) go()")
                (str "</script>") (str "Safe</strong>") Ho Hc))
             Ha eq_refl eq_refl (or_introl eq_refl)) eq_refl) eq_refl).
  - assert (Ho : ci_eq (open_tag StyleBlock) (str "<style"))
      by (repeat constructor).
    assert (Hc : ci_eq (close_tag StyleBlock) (str "</STYLE>"))
      by (repeat constructor).
    assert (Ha : lacks GT (decode_entities [])) by (vm_compute; constructor).
    exact (proj1 (proj1 (proj2
             (block_deleted_by_its_pass StyleBlock (str "x &amp; y")
                (str "<style") [] (str "p &gt; a { color: red }")
                (str "</STYLE>") (str "z<style>q</style>") Ho Hc))
             Ha eq_refl eq_refl (or_intror eq_refl))).
Defined.
